(** * AES S-box generation over GF(2^8) and its non-linearity analysis

    A shallow embedding of [sboxgenerator.py] and the statements of its
    specification.  Python integers are unbounded, so every integer is a [Z]
    and every bit operation is the corresponding [Z] operation, which agrees
    with Python's on negative numbers as well (two's complement, flooring
    shifts).  Python lists are [list Z]; reading or writing a list out of
    range raises [IndexError], which is [None] here. *)

From Stdlib Require Import ZArith List Lia Bool String Ascii Btauto.
From stdpp Require Import base option list list_numbers.

Local Open Scope Z_scope.

(** ** Python primitives used by the program *)

Module Py.

(** [for _ in range(n): s = body(s)] on a loop state [s]. *)
Fixpoint repeat_body {S : Type} (n : nat) (body : S -> S) (s : S) : S :=
  match n with
  | O => s
  | Datatypes.S n' => repeat_body n' body (body s)
  end.

(** [for x in xs: s = body(s, x)], where the body may raise. *)
Fixpoint for_each {S : Type} (xs : list Z) (body : S -> Z -> option S) (s : S)
  : option S :=
  match xs with
  | [] => Some s
  | x :: xs' =>
      match body s x with
      | Some s' => for_each xs' body s'
      | None => None
      end
  end.

(** [range(lo, hi)] for [lo <= hi]; [range(n)] is [range 0 n]. *)
Definition range (lo hi : Z) : list Z := seqZ lo (hi - lo).

(** [l[i]]: a negative index counts from the end, anything outside
    [-len, len) raises. *)
Definition getitem (l : list Z) (i : Z) : option Z :=
  let len := Z.of_nat (List.length l) in
  if 0 <=? i then l !! Z.to_nat i
  else if 0 <=? len + i then l !! Z.to_nat (len + i)
  else None.

(** [l[i] = v], with the same index rule. *)
Definition setitem (l : list Z) (i v : Z) : option (list Z) :=
  let len := Z.of_nat (List.length l) in
  if (0 <=? i) && (i <? len) then Some (<[Z.to_nat i := v]> l)
  else if (i <? 0) && (0 <=? len + i) then Some (<[Z.to_nat (len + i) := v]> l)
  else None.

(** The binary digits of a positive number, most significant first. *)
Fixpoint pos_digits (p : positive) (acc : string) : string :=
  match p with
  | xH => String "1"%char acc
  | xO p' => pos_digits p' (String "0"%char acc)
  | xI p' => pos_digits p' (String "1"%char acc)
  end.

(** [bin(x)]: ["0b..."], with a leading minus sign for negative [x]. *)
Definition bin (x : Z) : string :=
  match x with
  | Z0 => "0b0"%string
  | Zpos p => String.append "0b" (pos_digits p "")
  | Zneg p => String.append "-0b" (pos_digits p "")
  end.

(** [s.count(c)] for a one-character [c]. *)
Fixpoint count (s : string) (c : ascii) : Z :=
  match s with
  | EmptyString => 0
  | String d s' => (if Ascii.eqb d c then 1 else 0) + count s' c
  end.

End Py.

(** ** Part 1: GF(2^8) arithmetic *)

(** The AES irreducible polynomial x^8 + x^4 + x^3 + x + 1. *)
Definition AES_MODULUS : Z := 0x11B.

Definition gf_add (a b : Z) : Z := Z.lxor a b.

(** One round of the loop of [gf_mult] on the state [(p, a, b)]. *)
Definition gf_mult_body (s : Z * Z * Z) : Z * Z * Z :=
  let '(p, a, b) := s in
  let p := if Z.land b 1 =? 1 then Z.lxor p a else p in
  let hi_bit_set := Z.land a 0x80 in
  let a := Z.land (Z.shiftl a 1) 0xFF in
  let a := if hi_bit_set =? 0 then a else Z.lxor a 0x1B in
  let b := Z.shiftr b 1 in
  (p, a, b).

Definition gf_mult (a b : Z) : Z :=
  let '(p, _, _) := Py.repeat_body 8 gf_mult_body (0, a, b) in
  p.

(** ** Part 2: multiplicative inverses *)

Definition gf_inverse (a : Z) : Z :=
  if a =? 0 then 0
  else Py.repeat_body 254 (fun result => gf_mult result a) 1.

(** ** Part 3: the affine transformation *)

(** The value of [bit] at the end of round [i] of the loop. *)
Definition affine_bit (b i : Z) : Z :=
  let c := 0x63 in
  let bit := Z.land (Z.shiftr b i) 1 in
  let bit := Z.lxor bit (Z.land (Z.shiftr b ((i + 4) mod 8)) 1) in
  let bit := Z.lxor bit (Z.land (Z.shiftr b ((i + 5) mod 8)) 1) in
  let bit := Z.lxor bit (Z.land (Z.shiftr b ((i + 6) mod 8)) 1) in
  let bit := Z.lxor bit (Z.land (Z.shiftr b ((i + 7) mod 8)) 1) in
  let c_bit := Z.land (Z.shiftr c i) 1 in
  Z.lxor bit c_bit.

Definition affine_transform (byte_val : Z) : Z :=
  let b := byte_val in
  fold_left (fun new_b i => Z.lor new_b (Z.shiftl (affine_bit b i) i))
            (Py.range 0 8) 0.

(** ** Part 4: the S-box table *)

Definition generate_sbox : option (list Z) :=
  Py.for_each (Py.range 0 256)
    (fun sbox i =>
       let inv := gf_inverse i in
       let s := affine_transform inv in
       Py.setitem sbox i s)
    (replicate 256 0).

(** ** Part 5: non-linearity *)

(** [[bin(x).count('1') % 2 for x in range(256)]] *)
Definition parity_table : list Z :=
  map (fun x => Py.count (Py.bin x) "1"%char mod 2) (Py.range 0 256).

(** One round of the loop over [x]: the state is [matches]. *)
Definition match_body (sbox : list Z) (u v : Z) (matches x : Z) : option Z :=
  let input_masked := Z.land u x in
  sx ← Py.getitem sbox x;
  let output_masked := Z.land v sx in
  pi ← Py.getitem parity_table input_masked;
  po ← Py.getitem parity_table output_masked;
  Some (if pi =? po then matches + 1 else matches).

(** One round of the loop over [u]: the state is [max_bias]. *)
Definition mask_body (sbox : list Z) (v : Z) (max_bias u : Z) : option Z :=
  matches ← Py.for_each (Py.range 0 256) (match_body sbox u v) 0;
  let bias := Z.abs (matches - 128) in
  Some (if bias >? max_bias then bias else max_bias).

(** The progress message printed first is output only and is left out. *)
Definition calculate_non_linearity (sbox : list Z) : option Z :=
  max_bias ← Py.for_each (Py.range 1 256)
                (fun max_bias v => Py.for_each (Py.range 1 256) (mask_body sbox v) max_bias)
                0;
  Some (128 - max_bias).

(** ** Output

    [print] writes to the standard output; a function that prints is a
    function from the text written so far to the text written after it,
    with its result, or [None] when it raised. *)

Module IO.

Definition io (A : Type) : Type := string -> string * option A.

Definition ret {A : Type} (a : A) : io A := fun out => (out, Some a).

Definition bind {A B : Type} (m : io A) (k : A -> io B) : io B :=
  fun out =>
    match m out with
    | (out', Some a) => k a out'
    | (out', None) => (out', None)
    end.

(** The value of an expression that may raise. *)
Definition eval {A : Type} (o : option A) : io A := fun out => (out, o).

(** The line feed. *)
Definition nl : string := String "010"%char EmptyString.

(** [print(s, end=e)]; [print(s)] is [print s nl] and [print()] is
    [print "" nl]. *)
Definition print (s e : string) : io unit :=
  fun out => (String.append out (String.append s e), Some tt).

(** [for x in xs: body(x)] *)
Fixpoint for_each (xs : list Z) (body : Z -> io unit) : io unit :=
  match xs with
  | [] => ret tt
  | x :: xs' => bind (body x) (fun _ => for_each xs' body)
  end.

(** The digits of a non-negative [n] in base [base], most significant first,
    in front of [acc]. *)
Fixpoint digits (base : Z) (fuel : nat) (n : Z) (acc : string) : string :=
  match fuel with
  | O => acc
  | S fuel' =>
      let d := default "?"%char (String.get (Z.to_nat (n mod base)) "0123456789ABCDEF") in
      let acc' := String d acc in
      if n / base =? 0 then acc' else digits base fuel' (n / base) acc'
  end.

Definition magnitude (base v : Z) : string :=
  digits base (S (Z.to_nat (Z.log2 (Z.abs v)))) (Z.abs v) "".

Definition sign (v : Z) : string := if v <? 0 then "-"%string else ""%string.

(** [f"{v:X}"]: upper-case hexadecimal. *)
Definition format_X (v : Z) : string := String.append (sign v) (magnitude 16 v).

(** [f"{v:02X}"]: the same, with zeros after the sign up to a width of 2. *)
Definition format_02X (v : Z) : string :=
  let pad := (2 - String.length (sign v) - String.length (magnitude 16 v))%nat in
  String.append (sign v)
    (String.append (string_of_list_ascii (repeat "0"%char pad)) (magnitude 16 v)).

(** [f"{v}"] and [str(v)]: decimal. *)
Definition format_d (v : Z) : string := String.append (sign v) (magnitude 10 v).

End IO.

Definition print_sbox (sbox : list Z) : IO.io unit :=
  IO.bind (IO.print (String.append IO.nl
             (String.append "--- AES S-Box Generated from Scratch ---" IO.nl)) IO.nl)
  (fun _ =>
  IO.bind (IO.print "     0  1  2  3  4  5  6  7  8  9  A  B  C  D  E  F" IO.nl)
  (fun _ =>
  IO.bind (IO.print "   -----------------------------------------------" IO.nl)
  (fun _ =>
  IO.for_each (Py.range 0 16)
    (fun row =>
       IO.bind (IO.print (String.append (IO.format_X row) " |") " ")
       (fun _ =>
       IO.bind
         (IO.for_each (Py.range 0 16)
            (fun col =>
               IO.bind (IO.eval (Py.getitem sbox (row * 16 + col)))
               (fun val => IO.print (IO.format_02X val) " ")))
       (fun _ => IO.print "" IO.nl)))))).

(** [calculate_non_linearity] with the message it prints first. *)
Definition calculate_non_linearity_io (sbox : list Z) : IO.io Z :=
  IO.bind
    (IO.print (String.append IO.nl
       "Calculating Non-linearity... (This may take 10-20 seconds)") IO.nl)
    (fun _ => IO.eval (calculate_non_linearity sbox)).

(** The main program. *)
Definition main : IO.io unit :=
  IO.bind (IO.eval generate_sbox) (fun aes_sbox =>
  IO.bind (print_sbox aes_sbox) (fun _ =>
  IO.bind (IO.print (String.append IO.nl "[Verification Spot Check]") IO.nl) (fun _ =>
  IO.bind (IO.eval (Py.getitem aes_sbox 0)) (fun s0 =>
  IO.bind (IO.print (String.append "Input 0x00 -> "
                       (String.append (IO.format_02X s0) " (Expected 63)")) IO.nl)
  (fun _ =>
  IO.bind (IO.eval (Py.getitem aes_sbox 1)) (fun s1 =>
  IO.bind (IO.print (String.append "Input 0x01 -> "
                       (String.append (IO.format_02X s1) " (Expected 7C)")) IO.nl)
  (fun _ =>
  IO.bind (calculate_non_linearity_io aes_sbox) (fun nl_score =>
  IO.bind (IO.print (String.append IO.nl "--- Experiment Results ---") IO.nl) (fun _ =>
  IO.bind (IO.print (String.append "Calculated Non-linearity: "
                       (IO.format_d nl_score)) IO.nl)
  (fun _ =>
  if nl_score =? 112 then
    IO.print "SUCCESS: Your S-Box matches the cryptographic strength of AES (112)."
             IO.nl
  else
    IO.print (String.append "Note: Standard AES is 112. You got "
                (String.append (IO.format_d nl_score) ".")) IO.nl)))))))))).

(** ** What the specification speaks of *)

Module Spec.

(** A non-negative integer is a polynomial over GF(2): bit [i] is the
    coefficient of x^i, so a byte is a polynomial of degree below 8, adding
    is [Z.lxor] and multiplying by x is [Z.double].

    The product of two polynomials, without reduction, by the digits of the
    second: a * 1 = a, a * (x * b) = x * (a * b), and
    a * (x * b + 1) = a + x * (a * b). *)
Fixpoint poly_mul_pos (a : Z) (b : positive) : Z :=
  match b with
  | xH => a
  | xO b' => Z.double (poly_mul_pos a b')
  | xI b' => Z.lxor a (Z.double (poly_mul_pos a b'))
  end.

Definition poly_mul (a b : Z) : Z :=
  match b with
  | Zpos p => poly_mul_pos a p
  | _ => 0
  end.

(** Division with remainder by [m], by the digits of the dividend: when a
    dividend has quotient [q] and remainder [r], the dividend with one more
    low digit [c] has remainder [r] with that digit appended, less [m] if
    this reaches the degree of [m], and quotient [q] with the digit 1 or 0
    appended accordingly. *)
Definition poly_divmod_step (m : Z) (qr : Z * Z) (c : Z) : Z * Z :=
  let '(q, r) := qr in
  let r := Z.lxor (Z.double r) c in
  if Z.testbit r (Z.log2 m) then (Z.succ_double q, Z.lxor r m) else (Z.double q, r).

Fixpoint poly_divmod_pos (x : positive) (m : Z) : Z * Z :=
  match x with
  | xH => poly_divmod_step m (0, 0) 1
  | xO x' => poly_divmod_step m (poly_divmod_pos x' m) 0
  | xI x' => poly_divmod_step m (poly_divmod_pos x' m) 1
  end.

Definition poly_divmod (x m : Z) : Z * Z :=
  match x with
  | Zpos p => poly_divmod_pos p m
  | _ => (0, 0)
  end.

Definition poly_quot (x m : Z) : Z := fst (poly_divmod x m).
Definition poly_mod (x m : Z) : Z := snd (poly_divmod x m).

(** The number of set bits of a byte, and their exclusive or. *)
Definition popcount (x : Z) : Z :=
  fold_left (fun n i => n + Z.b2z (Z.testbit x i)) (seqZ 0 8) 0.

Definition parity (x : Z) : Z := popcount x mod 2.

(** Entry [x] of a table. *)
Definition entry (sbox : list Z) (x : Z) : Z := nth (Z.to_nat x) sbox 0.

(** The linear approximation [u.x = v.S(x)] holds at [x]. *)
Definition approx_holds (sbox : list Z) (u v x : Z) : bool :=
  parity (Z.land u x) =? parity (Z.land v (entry sbox x)).

(** The number of inputs in [0, 255] at which the approximation holds. *)
Definition matches (sbox : list Z) (u v : Z) : Z :=
  Z.of_nat (List.length (List.filter (approx_holds sbox u v) (seqZ 0 256))).

Definition bias (sbox : list Z) (u v : Z) : Z := Z.abs (matches sbox u v - 128).

Definition byte (x : Z) : Prop := 0 <= x <= 255.
Definition mask (x : Z) : Prop := 1 <= x <= 255.

(** [m] is the maximum of the bias over all pairs of nonzero masks: no pair
    exceeds it and some pair reaches it. *)
Definition is_max_bias (sbox : list Z) (m : Z) : Prop :=
  (forall u v, mask u -> mask v -> bias sbox u v <= m)
  /\ (exists u v, mask u /\ mask v /\ bias sbox u v = m).

End Spec.

(** ** Evaluation devices

    The search visits 255 * 255 mask pairs and 256 inputs for each.  To
    evaluate it on a given table the parities of [u & x] are tabulated once
    per input mask and those of [v & S(x)] once per output mask, and the
    matches of a pair are counted by walking the two rows side by side.
    Likewise the 256 inverses, of 254 multiplications each, are tabulated
    once.  Every device is proved equal to what it stands for before it is
    used. *)

Module Eval.

Fixpoint agree (xs ys : list Z) : Z :=
  match xs, ys with
  | x :: xs', y :: ys' => (if x =? y then 1 else 0) + agree xs' ys'
  | _, _ => 0
  end.

Definition in_row (u : Z) : list Z :=
  (fun x => Spec.parity (Z.land u x)) <$> seqZ 0 256.

Definition out_row (sbox : list Z) (v : Z) : list Z :=
  (fun s => Spec.parity (Z.land v s)) <$> sbox.

(** The running maximum of [f u v] over [us] and [vs], from [m0]. *)
Definition sweep (f : Z -> Z -> Z) (us vs : list Z) (m0 : Z) : Z :=
  fold_left (fun mb v => fold_left (fun mb u => Z.max mb (f u v)) us mb) vs m0.

Definition max_bias (sbox : list Z) : Z :=
  let rows := in_row <$> seqZ 1 255 in
  fold_left
    (fun mb v =>
       let out := out_row sbox v in
       fold_left (fun mb row => Z.max mb (Z.abs (agree row out - 128))) rows mb)
    (seqZ 1 255) 0.

(** The table entry by entry, as section 4.4 of the specification gives it. *)
Definition sbox_entries : list Z :=
  (fun i => affine_transform (gf_inverse i)) <$> seqZ 0 256.

(** The inverses of all bytes, tabulated once. *)
Definition inverse_table : list Z :=
  Eval vm_compute in (gf_inverse <$> seqZ 0 256).

(** The inverse of the affine transformation, as FIPS 197 gives it: bit [i]
    of the result is the sum of bits [i + 2], [i + 5] and [i + 7] (modulo 8)
    of the argument and bit [i] of 0x05. *)
Definition affine_inverse_bit (y i : Z) : Z :=
  let d := 0x05 in
  let bit := Z.land (Z.shiftr y ((i + 2) mod 8)) 1 in
  let bit := Z.lxor bit (Z.land (Z.shiftr y ((i + 5) mod 8)) 1) in
  let bit := Z.lxor bit (Z.land (Z.shiftr y ((i + 7) mod 8)) 1) in
  Z.lxor bit (Z.land (Z.shiftr d i) 1).

Definition affine_inverse (y : Z) : Z :=
  fold_left (fun x i => Z.lor x (Z.shiftl (affine_inverse_bit y i) i)) (seqZ 0 8) 0.

(** Boolean tests over all bytes and all pairs of bytes. *)
Definition all_bytes (P : Z -> bool) : bool := forallb P (seqZ 0 256).
Definition all_byte_pairs (P : Z -> Z -> bool) : bool :=
  let bytes := seqZ 0 256 in
  forallb (fun a => forallb (P a) bytes) bytes.

End Eval.

(** ** Devices for the further properties *)

Module Field.

(** The new first operand after one round of [gf_mult]: the old one times x,
    reduced. *)
Definition xtime (a : Z) : Z :=
  let hi_bit_set := Z.land a 0x80 in
  let a := Z.land (Z.shiftl a 1) 0xFF in
  if hi_bit_set =? 0 then a else Z.lxor a 0x1B.

(** The bytes with one bit set. *)
Definition basis : list Z := [1; 2; 4; 8; 16; 32; 64; 128].

(** The part of [a] at bit [i]. *)
Definition bit_part (a i : Z) : Z := if Z.testbit a i then 2 ^ i else 0.

Definition additive (f : Z -> Z) : Prop :=
  forall x y, f (Z.lxor x y) = Z.lxor (f x) (f y).

End Field.

Module Affine.

(** Bit [i] of the affine map of [b], as section 4.3 of the specification
    gives it: the sum of bits [i], [i + 4], [i + 5], [i + 6] and [i + 7]
    (modulo 8) of [b] and bit [i] of 0x63. *)
Definition row (b i : Z) : bool :=
  xorb (xorb (xorb (xorb (xorb (Z.testbit b i)
                               (Z.testbit b ((i + 4) mod 8)))
                         (Z.testbit b ((i + 5) mod 8)))
                   (Z.testbit b ((i + 6) mod 8)))
             (Z.testbit b ((i + 7) mod 8)))
       (Z.testbit 0x63 i).

End Affine.

Module Out.

(** What a function that prints writes, whatever was written before. *)
Definition writes {A : Type} (m : IO.io A) (text : string) (a : A) : Prop :=
  forall out, m out = (String.append out text, Some a).

Definition raises {A : Type} (m : IO.io A) : Prop :=
  forall out, snd (m out) = None.

(** Texts one after the other. *)
Definition join (texts : list string) : string :=
  fold_right String.append EmptyString texts.

(** The cell of an entry, the line of a row and the whole of what
    [print_sbox] writes for a table. *)
Definition cell_text (sbox : list Z) (row col : Z) : string :=
  String.append (IO.format_02X (Spec.entry sbox (row * 16 + col))) " ".

Definition row_text (sbox : list Z) (row : Z) : string :=
  String.append (String.append (String.append (IO.format_X row) " |") " ")
    (String.append (join (cell_text sbox row <$> seqZ 0 16))
                   (String.append "" IO.nl)).

Definition table_text (sbox : list Z) : string :=
  String.append
    (String.append
       (String.append IO.nl
          (String.append "--- AES S-Box Generated from Scratch ---" IO.nl)) IO.nl)
    (String.append
       (String.append "     0  1  2  3  4  5  6  7  8  9  A  B  C  D  E  F" IO.nl)
       (String.append
          (String.append "   -----------------------------------------------" IO.nl)
          (join (row_text sbox <$> seqZ 0 16)))).

(** The value of a text of hexadecimal digits. *)
Definition hex_value (s : string) : Z :=
  fold_left
    (fun n c =>
       16 * n + default 0 (Z.of_nat <$> String.index 0 (String c EmptyString)
                                          "0123456789ABCDEF"))
    (list_ascii_of_string s) 0.

(** Lines, each ended by a line feed. *)
Definition lines (ls : list string) : string :=
  join ((fun l => String.append l IO.nl) <$> ls).

(** What the main program writes after the table. *)
Definition report_text : string :=
  lines [ ""%string;
          "[Verification Spot Check]"%string;
          "Input 0x00 -> 63 (Expected 63)"%string;
          "Input 0x01 -> 7C (Expected 7C)"%string;
          ""%string;
          "Calculating Non-linearity... (This may take 10-20 seconds)"%string;
          ""%string;
          "--- Experiment Results ---"%string;
          "Calculated Non-linearity: 112"%string;
          "SUCCESS: Your S-Box matches the cryptographic strength of AES (112)."%string ].

End Out.

(** ** Bytes, exhaustively *)

Section Exhaustive.

Lemma byte_in_range (a : Z) : Spec.byte a <-> a ∈ seqZ 0 256.
Proof. unfold Spec.byte. rewrite elem_of_seqZ. lia. Qed.

Lemma all_bytes_correct (P : Z -> bool) :
  Eval.all_bytes P = true -> forall a, Spec.byte a -> P a = true.
Proof.
  unfold Eval.all_bytes. rewrite forallb_forall. intros H a Ha.
  apply H, list_elem_of_In, byte_in_range, Ha.
Qed.

Lemma all_byte_pairs_correct (P : Z -> Z -> bool) :
  Eval.all_byte_pairs P = true ->
  forall a b, Spec.byte a -> Spec.byte b -> P a b = true.
Proof.
  unfold Eval.all_byte_pairs. cbv zeta. rewrite forallb_forall.
  intros H a b Ha Hb.
  specialize (H a (proj1 (list_elem_of_In _ _) (proj1 (byte_in_range a) Ha))).
  rewrite forallb_forall in H.
  apply H, list_elem_of_In, byte_in_range, Hb.
Qed.

End Exhaustive.

(** ** Polynomials over GF(2) *)

Section Polynomials.

Lemma double_lxor (x y : Z) :
  Z.double (Z.lxor x y) = Z.lxor (Z.double x) (Z.double y).
Proof.
  assert (forall z, Z.double z = Z.shiftl z 1) as Hshift.
  { intros z. rewrite Z.double_spec, Z.shiftl_mul_pow2 by lia.
    change (2 ^ 1) with 2. apply Z.mul_comm. }
  rewrite !Hshift. apply Z.shiftl_lxor.
Qed.

Lemma poly_mul_pos_double (a : Z) (b : positive) :
  Spec.poly_mul_pos (Z.double a) b = Z.double (Spec.poly_mul_pos a b).
Proof.
  induction b as [b IH|b IH|]; cbn [Spec.poly_mul_pos].
  - now rewrite IH, double_lxor.
  - now rewrite IH.
  - reflexivity.
Qed.

Lemma poly_mul_pos_lxor (a c : Z) (b : positive) :
  Spec.poly_mul_pos (Z.lxor a c) b
  = Z.lxor (Spec.poly_mul_pos a b) (Spec.poly_mul_pos c b).
Proof.
  induction b as [b IH|b IH|]; cbn [Spec.poly_mul_pos].
  - rewrite IH, double_lxor.
    rewrite !Z.lxor_assoc. f_equal.
    rewrite <- !Z.lxor_assoc. f_equal. apply Z.lxor_comm.
  - now rewrite IH, double_lxor.
  - reflexivity.
Qed.

Lemma poly_mul_pos_1 (b : positive) : Spec.poly_mul_pos 1 b = Zpos b.
Proof.
  induction b as [b IH|b IH|]; cbn [Spec.poly_mul_pos]; rewrite ?IH; reflexivity.
Qed.

(** The product of polynomials is commutative. *)
Lemma poly_mul_pos_comm (p q : positive) :
  Spec.poly_mul_pos (Zpos p) q = Spec.poly_mul_pos (Zpos q) p.
Proof.
  revert q. induction p as [p IH|p IH|]; intros q; cbn [Spec.poly_mul_pos].
  - change (Zpos p~1) with (Z.lxor 1 (Z.double (Zpos p))).
    rewrite poly_mul_pos_lxor, poly_mul_pos_double, poly_mul_pos_1, IH.
    reflexivity.
  - change (Zpos p~0) with (Z.double (Zpos p)).
    now rewrite poly_mul_pos_double, IH.
  - apply poly_mul_pos_1.
Qed.

Lemma poly_mul_pos_0 (b : positive) : Spec.poly_mul_pos 0 b = 0.
Proof.
  induction b as [b IH|b IH|]; cbn [Spec.poly_mul_pos]; rewrite ?IH; reflexivity.
Qed.

Lemma poly_mul_comm (a b : Z) :
  0 <= a -> 0 <= b -> Spec.poly_mul a b = Spec.poly_mul b a.
Proof.
  intros Ha Hb.
  destruct a as [|p|p]; [| |lia]; (destruct b as [|q|q]; [| |lia]);
    cbn [Spec.poly_mul].
  - reflexivity.
  - apply poly_mul_pos_0.
  - symmetry. apply poly_mul_pos_0.
  - apply poly_mul_pos_comm.
Qed.

End Polynomials.

(** ** Field multiplication *)

Section Multiplication.

Lemma land_1_testbit (b : Z) : Z.land b 1 = Z.b2z (Z.testbit b 0).
Proof.
  change 1 with (Z.ones 1) at 1. rewrite Z.land_ones by lia.
  now rewrite Z.bit0_mod.
Qed.

(** The first [n] rounds read the [n] low bits of the second operand only. *)
Lemma gf_mult_rounds_low_bits (n : nat) :
  forall p a b b',
    (forall i, 0 <= i < Z.of_nat n -> Z.testbit b i = Z.testbit b' i) ->
    fst (Py.repeat_body n gf_mult_body (p, a, b)) =
    fst (Py.repeat_body n gf_mult_body (p, a, b')).
Proof.
  induction n as [|n IH]; intros p a b b' Hbits; [reflexivity|].
  cbn [Py.repeat_body gf_mult_body].
  rewrite !land_1_testbit, (Hbits 0) by lia.
  apply IH. intros i Hi.
  rewrite !Z.shiftr_spec by lia. apply Hbits. lia.
Qed.

Lemma gf_mult_low_bits (a b b' : Z) :
  (forall i, 0 <= i < 8 -> Z.testbit b i = Z.testbit b' i) ->
  gf_mult a b = gf_mult a b'.
Proof.
  intros Hbits. unfold gf_mult.
  pose proof (gf_mult_rounds_low_bits 8 0 a b b' Hbits) as H.
  destruct (Py.repeat_body 8 gf_mult_body (0, a, b)) as [[p1 a1] b1].
  destruct (Py.repeat_body 8 gf_mult_body (0, a, b')) as [[p2 a2] b2].
  cbn in H. congruence.
Qed.

Lemma gf_mult_mod_256 (a b : Z) : gf_mult a b = gf_mult a (b mod 256).
Proof.
  apply gf_mult_low_bits. intros i Hi.
  change 256 with (2 ^ 8). now rewrite Z.mod_pow2_bits_low by lia.
Qed.

(** For every pair of bytes, dividing the product of the polynomials by the
    modulus leaves [gf_mult], a byte, and the division is exact: the product
    is quotient times modulus plus remainder. *)
Lemma gf_mult_poly_checked :
  Eval.all_byte_pairs
    (fun a b =>
       let x := Spec.poly_mul a b in
       let '(q, r) := Spec.poly_divmod x AES_MODULUS in
       (gf_mult a b =? r)
       && (x =? Z.lxor (Spec.poly_mul q AES_MODULUS) r)
       && (0 <=? r) && (r <=? 255)) = true.
Proof. vm_cast_no_check (eq_refl true). Qed.

Lemma gf_mult_poly_facts (a b : Z) :
  Spec.byte a -> Spec.byte b ->
  gf_mult a b = Spec.poly_mod (Spec.poly_mul a b) AES_MODULUS
  /\ Spec.poly_mul a b
     = Z.lxor (Spec.poly_mul (Spec.poly_quot (Spec.poly_mul a b) AES_MODULUS)
                             AES_MODULUS)
              (gf_mult a b)
  /\ Spec.byte (gf_mult a b).
Proof.
  intros Ha Hb.
  pose proof (all_byte_pairs_correct _ gf_mult_poly_checked a b Ha Hb) as H.
  cbv beta zeta in H. unfold Spec.poly_mod, Spec.poly_quot, Spec.byte.
  destruct (Spec.poly_divmod (Spec.poly_mul a b) AES_MODULUS) as [q r].
  cbn [fst snd].
  apply andb_prop in H as [H Hhi]. apply andb_prop in H as [H Hlo].
  apply andb_prop in H as [Heq Hdiv].
  apply Z.eqb_eq in Heq, Hdiv. apply Z.leb_le in Hlo, Hhi.
  rewrite Heq. split; [reflexivity|]. split; [exact Hdiv | lia].
Qed.

Lemma gf_mult_comm_byte (a b : Z) :
  Spec.byte a -> Spec.byte b -> gf_mult a b = gf_mult b a.
Proof.
  intros Ha Hb.
  destruct (gf_mult_poly_facts a b Ha Hb) as [-> _].
  destruct (gf_mult_poly_facts b a Hb Ha) as [-> _].
  unfold Spec.byte in Ha, Hb. rewrite (poly_mul_comm a b) by lia.
  reflexivity.
Qed.

End Multiplication.

(** ** Inverses *)

Section Inverse.

Lemma inverse_table_checked : gf_inverse <$> seqZ 0 256 = Eval.inverse_table.
Proof. vm_cast_no_check (eq_refl Eval.inverse_table). Qed.

Lemma inverse_table_entry (a : Z) :
  Spec.byte a -> Spec.entry Eval.inverse_table a = gf_inverse a.
Proof.
  unfold Spec.byte, Spec.entry. intros Ha.
  rewrite <- inverse_table_checked, nth_lookup, list_lookup_fmap.
  rewrite lookup_seqZ_lt by lia. cbn [fmap option_fmap option_map default].
  unfold id. f_equal. lia.
Qed.

(** In the table, every entry is a byte, the entry of the entry of [a] is
    [a], the entry of 0 is 0 and the entry of another byte is its inverse. *)
Lemma inverse_table_facts_checked :
  Eval.all_bytes
    (fun a =>
       let b := Spec.entry Eval.inverse_table a in
       (0 <=? b) && (b <=? 255)
       && (Spec.entry Eval.inverse_table b =? a)
       && (if a =? 0 then b =? 0 else gf_mult a b =? 1)) = true.
Proof. vm_cast_no_check (eq_refl true). Qed.

Lemma gf_inverse_facts (a : Z) :
  Spec.byte a ->
  Spec.byte (gf_inverse a)
  /\ gf_inverse (gf_inverse a) = a
  /\ (a <> 0 -> gf_mult a (gf_inverse a) = 1).
Proof.
  intros Ha.
  pose proof (all_bytes_correct _ inverse_table_facts_checked a Ha) as H.
  cbv beta zeta in H. rewrite (inverse_table_entry a Ha) in H.
  apply andb_prop in H as [H Hinv]. apply andb_prop in H as [H Hinvol].
  apply andb_prop in H as [Hlo Hhi]. apply Z.leb_le in Hlo, Hhi.
  assert (Spec.byte (gf_inverse a)) as Hb by (unfold Spec.byte; lia).
  rewrite (inverse_table_entry _ Hb) in Hinvol. apply Z.eqb_eq in Hinvol.
  split; [exact Hb|]. split; [exact Hinvol|].
  intros Hne. destruct (Z.eqb_spec a 0) as [|_]; [contradiction|].
  now apply Z.eqb_eq.
Qed.

Lemma gf_inverse_involutive_byte (a : Z) :
  Spec.byte a -> gf_inverse (gf_inverse a) = a /\ Spec.byte (gf_inverse a).
Proof. intros Ha. destruct (gf_inverse_facts a Ha) as (Hb & Hinv & _). now split. Qed.

End Inverse.

(** ** The affine transformation *)

Section Affine.

Lemma shiftr_land_1_low (b j : Z) :
  0 <= j < 8 -> Z.land (Z.shiftr (b mod 256) j) 1 = Z.land (Z.shiftr b j) 1.
Proof.
  intros Hj. rewrite !land_1_testbit, !Z.shiftr_spec by lia.
  change 256 with (2 ^ 8). now rewrite Z.mod_pow2_bits_low by lia.
Qed.

(** Every round reads bits 0 to 7 of the input only. *)
Lemma affine_bit_low (b i : Z) :
  0 <= i < 8 -> affine_bit (b mod 256) i = affine_bit b i.
Proof.
  intros Hi. unfold affine_bit.
  rewrite !shiftr_land_1_low by (try apply Z.mod_pos_bound; lia).
  reflexivity.
Qed.

Lemma fold_left_ext_elem {A : Type} (f g : A -> Z -> A) (xs : list Z) :
  (forall a x, x ∈ xs -> f a x = g a x) ->
  forall a, fold_left f xs a = fold_left g xs a.
Proof.
  induction xs as [|x xs IH]; intros Hfg a; [reflexivity|].
  cbn. rewrite Hfg by constructor.
  apply IH. intros a' y Hy. apply Hfg. now constructor.
Qed.

Lemma affine_transform_low (b : Z) :
  affine_transform (b mod 256) = affine_transform b.
Proof.
  unfold affine_transform. apply fold_left_ext_elem.
  intros new_b i Hi. unfold Py.range in Hi. apply elem_of_seqZ in Hi.
  rewrite affine_bit_low by lia. reflexivity.
Qed.

(** On bytes the transformation and its inverse undo each other, and both
    give bytes. *)
Lemma affine_transform_checked :
  Eval.all_bytes
    (fun a =>
       (0 <=? affine_transform a) && (affine_transform a <=? 255)
       && (Eval.affine_inverse (affine_transform a) =? a)
       && (affine_transform (Eval.affine_inverse a) =? a)
       && (0 <=? Eval.affine_inverse a) && (Eval.affine_inverse a <=? 255)) = true.
Proof. vm_cast_no_check (eq_refl true). Qed.

Lemma affine_transform_facts (a : Z) :
  Spec.byte a ->
  Spec.byte (affine_transform a)
  /\ Eval.affine_inverse (affine_transform a) = a
  /\ affine_transform (Eval.affine_inverse a) = a
  /\ Spec.byte (Eval.affine_inverse a).
Proof.
  intros Ha.
  pose proof (all_bytes_correct _ affine_transform_checked a Ha) as H.
  cbv beta in H. unfold Spec.byte. lia.
Qed.

Lemma affine_transform_range (b : Z) : Spec.byte (affine_transform b).
Proof.
  rewrite <- affine_transform_low.
  assert (Spec.byte (b mod 256)) as Hb.
  { unfold Spec.byte. pose proof (Z.mod_pos_bound b 256). lia. }
  destruct (affine_transform_facts (b mod 256) Hb) as [Hrange _].
  exact Hrange.
Qed.

Lemma affine_transform_injective (a b : Z) :
  Spec.byte a -> Spec.byte b ->
  affine_transform a = affine_transform b -> a = b.
Proof.
  intros Ha Hb Heq.
  destruct (affine_transform_facts a Ha) as (_ & Hla & _).
  destruct (affine_transform_facts b Hb) as (_ & Hlb & _).
  rewrite <- Hla, <- Hlb. now f_equal.
Qed.

Lemma affine_transform_surjective (y : Z) :
  Spec.byte y -> exists x, Spec.byte x /\ affine_transform x = y.
Proof.
  intros Hy. destruct (affine_transform_facts y Hy) as (_ & _ & Hr & Hp).
  now exists (Eval.affine_inverse y).
Qed.

End Affine.

(** ** The table *)

Section Table.

(** The loop that fills the table: once the entries before [k] are written,
    the remaining rounds write the remaining entries, and no store is out of
    range. *)
Lemma fill_table (f : Z -> Z) (m : nat) :
  forall pre : list Z,
    Py.for_each (seqZ (Z.of_nat (length pre)) (Z.of_nat m))
                (fun sbox i => Py.setitem sbox i (f i))
                (pre ++ replicate m 0)
    = Some (pre ++ (f <$> seqZ (Z.of_nat (length pre)) (Z.of_nat m))).
Proof.
  induction m as [|m IH]; intros pre.
  - reflexivity.
  - rewrite seqZ_cons by lia. cbn [Py.for_each replicate fmap list_fmap].
    unfold Py.setitem at 1. rewrite length_app. cbn [length].
    destruct (Z.leb_spec 0 (Z.of_nat (length pre))) as [_|]; [|lia].
    destruct (Z.ltb_spec (Z.of_nat (length pre))
                         (Z.of_nat (length pre + S (length (replicate m 0)))))
      as [_|]; [|lia].
    cbn [andb]. rewrite Nat2Z.id.
    rewrite insert_app_r_alt by lia. rewrite Nat.sub_diag. cbn [insert list_insert].
    set (k := Z.of_nat (length pre)).
    assert (forall rest, pre ++ f k :: rest = (pre ++ [f k]) ++ rest) as Hsplit
      by (intros rest; now rewrite <- app_assoc).
    assert (Z.succ k = Z.of_nat (length (pre ++ [f k]))) as ->
      by (rewrite length_app; cbn [length]; lia).
    replace (Z.pred (Z.of_nat (S m))) with (Z.of_nat m) by lia.
    rewrite (Hsplit (replicate m 0)), (Hsplit (f <$> _)). apply IH.
Qed.

Lemma generate_sbox_entries : generate_sbox = Some Eval.sbox_entries.
Proof.
  exact (fill_table (fun i => affine_transform (gf_inverse i)) 256 []).
Qed.

Lemma sbox_entries_table :
  Eval.sbox_entries = affine_transform <$> Eval.inverse_table.
Proof.
  unfold Eval.sbox_entries.
  rewrite <- inverse_table_checked, <- list_fmap_compose.
  unfold compose. reflexivity.
Qed.

Lemma reference_entries_checked :
  Py.getitem (affine_transform <$> Eval.inverse_table) 0 = Some 0x63
  /\ Py.getitem (affine_transform <$> Eval.inverse_table) 1 = Some 0x7C
  /\ Py.getitem (affine_transform <$> Eval.inverse_table) 0x53 = Some 0xED.
Proof.
  vm_cast_no_check
    (conj (eq_refl (Some 0x63)) (conj (eq_refl (Some 0x7C)) (eq_refl (Some 0xED)))).
Qed.

Lemma substitute_injective (x y : Z) :
  Spec.byte x -> Spec.byte y ->
  affine_transform (gf_inverse x) = affine_transform (gf_inverse y) -> x = y.
Proof.
  intros Hx Hy Heq.
  destruct (gf_inverse_involutive_byte x Hx) as [Hxx Hbx].
  destruct (gf_inverse_involutive_byte y Hy) as [Hyy Hby].
  apply (affine_transform_injective _ _ Hbx Hby) in Heq.
  rewrite <- Hxx, <- Hyy, Heq. reflexivity.
Qed.

Lemma sbox_entries_length : length Eval.sbox_entries = 256%nat.
Proof. unfold Eval.sbox_entries. now rewrite length_fmap, length_seqZ. Qed.

Lemma sbox_entries_NoDup : NoDup Eval.sbox_entries.
Proof.
  unfold Eval.sbox_entries. apply NoDup_fmap_2_strong; [|apply NoDup_seqZ].
  intros x y Hx Hy. cbv beta.
  apply substitute_injective; now apply byte_in_range.
Qed.

Lemma sbox_entries_bytes (s : Z) : s ∈ Eval.sbox_entries -> s ∈ seqZ 0 256.
Proof.
  unfold Eval.sbox_entries. intros (x & -> & _)%list_elem_of_fmap.
  apply byte_in_range, affine_transform_range.
Qed.

Lemma sbox_entries_Permutation : Eval.sbox_entries ≡ₚ seqZ 0 256.
Proof.
  apply submseteq_length_Permutation.
  - apply NoDup_submseteq; [apply sbox_entries_NoDup | apply sbox_entries_bytes].
  - now rewrite sbox_entries_length, length_seqZ.
Qed.

Lemma sbox_entries_once (v : Z) :
  Spec.byte v -> count_occ Z.eq_dec Eval.sbox_entries v = 1%nat.
Proof.
  intros Hv. apply (proj1 (NoDup_count_occ' Z.eq_dec _) (proj1 (NoDup_ListNoDup _) sbox_entries_NoDup)).
  apply list_elem_of_In. rewrite sbox_entries_Permutation.
  now apply byte_in_range.
Qed.

End Table.

(** ** The search *)

Section Search.

(** A loop whose body never raises is a fold. *)
Lemma for_each_total {S : Type} (f : S -> Z -> S) (body : S -> Z -> option S)
      (xs : list Z) :
  (forall s x, x ∈ xs -> body s x = Some (f s x)) ->
  forall s, Py.for_each xs body s = Some (fold_left f xs s).
Proof.
  induction xs as [|x xs IH]; intros Hbody s; [reflexivity|].
  cbn. rewrite Hbody by constructor.
  apply IH. intros s' y Hy. apply Hbody. now constructor.
Qed.

Lemma fold_left_count (P : Z -> bool) (xs : list Z) :
  forall m,
    fold_left (fun m x => if P x then m + 1 else m) xs m
    = m + Z.of_nat (List.length (List.filter P xs)).
Proof.
  induction xs as [|x xs IH]; intros m; cbn [fold_left List.filter].
  - cbn. lia.
  - rewrite IH. destruct (P x); cbn [List.length]; lia.
Qed.

Lemma fold_left_fmap {A B C : Type} (f : A -> B -> A) (g : C -> B) (xs : list C) :
  forall a, fold_left f (g <$> xs) a = fold_left (fun a x => f a (g x)) xs a.
Proof. induction xs as [|x xs IH]; intros a; cbn; [reflexivity | apply IH]. Qed.

Lemma parity_table_checked :
  Eval.all_bytes
    (fun i => match Py.getitem parity_table i with
              | Some p => p =? Spec.parity i
              | None => false
              end) = true.
Proof. vm_cast_no_check (eq_refl true). Qed.

Lemma parity_table_lookup (i : Z) :
  Spec.byte i -> Py.getitem parity_table i = Some (Spec.parity i).
Proof.
  intros Hi. pose proof (all_bytes_correct _ parity_table_checked i Hi) as H.
  cbv beta in H. destruct (Py.getitem parity_table i) as [p|]; [|discriminate].
  f_equal. lia.
Qed.

Lemma getitem_entry (sbox : list Z) (x : Z) :
  0 <= x < Z.of_nat (length sbox) ->
  Py.getitem sbox x = Some (Spec.entry sbox x).
Proof.
  intros Hx. unfold Py.getitem, Spec.entry.
  destruct (Z.leb_spec 0 x) as [_|]; [|lia].
  destruct (lookup_lt_is_Some_2 sbox (Z.to_nat x)) as [y Hy]; [lia|].
  now rewrite nth_lookup, Hy.
Qed.

(** Masking with a byte gives a byte, whatever is masked. *)
Lemma land_byte (u x : Z) : Spec.byte u -> Spec.byte (Z.land u x).
Proof.
  unfold Spec.byte. intros Hu.
  assert (Z.land u 255 = u) as Hu255.
  { change 255 with (Z.ones 8). rewrite Z.land_ones by lia.
    apply Z.mod_small. lia. }
  assert (Z.land u x = Z.land u x mod 2 ^ 8) as ->.
  { rewrite <- Z.land_ones by lia. change (Z.ones 8) with 255.
    rewrite <- Z.land_assoc, (Z.land_comm x 255), Z.land_assoc.
    now rewrite Hu255. }
  pose proof (Z.mod_pos_bound (Z.land u x) (2 ^ 8)). lia.
Qed.

Lemma matches_range (sbox : list Z) (u v : Z) : 0 <= Spec.matches sbox u v <= 256.
Proof.
  unfold Spec.matches.
  pose proof (filter_length_le (Spec.approx_holds sbox u v) (seqZ 0 256)) as H.
  rewrite length_seqZ in H. lia.
Qed.

Lemma bias_range (sbox : list Z) (u v : Z) : 0 <= Spec.bias sbox u v <= 128.
Proof.
  unfold Spec.bias. pose proof (matches_range sbox u v) as H.
  revert H. generalize (Spec.matches sbox u v). intros n H. lia.
Qed.

Section Table.

Variable sbox : list Z.
Hypothesis sbox_length : length sbox = 256%nat.

Lemma match_body_eq (u v matches x : Z) :
  Spec.byte u -> Spec.byte v -> x ∈ seqZ 0 256 ->
  match_body sbox u v matches x
  = Some (if Spec.approx_holds sbox u v x then matches + 1 else matches).
Proof.
  intros Hu Hv Hx%elem_of_seqZ. unfold match_body, Spec.approx_holds.
  rewrite (getitem_entry sbox x) by lia. cbn [mbind option_bind].
  rewrite !parity_table_lookup by now apply land_byte.
  reflexivity.
Qed.

Lemma matches_loop (u v : Z) :
  Spec.byte u -> Spec.byte v ->
  Py.for_each (Py.range 0 256) (match_body sbox u v) 0
  = Some (Spec.matches sbox u v).
Proof.
  intros Hu Hv. change (Py.range 0 256) with (seqZ 0 256).
  rewrite (for_each_total
             (fun m x => if Spec.approx_holds sbox u v x then m + 1 else m)).
  - rewrite fold_left_count, Z.add_0_l. unfold Spec.matches. reflexivity.
  - intros m x Hx. apply match_body_eq; assumption.
Qed.

Lemma mask_body_eq (v max_bias u : Z) :
  Spec.byte u -> Spec.byte v ->
  mask_body sbox v max_bias u = Some (Z.max max_bias (Spec.bias sbox u v)).
Proof.
  intros Hu Hv. unfold mask_body. rewrite matches_loop by assumption.
  cbn [mbind option_bind]. unfold Spec.bias. f_equal.
  generalize (Z.abs (Spec.matches sbox u v - 128)). intros bias.
  destruct (Z.gtb_spec bias max_bias); lia.
Qed.

Lemma mask_in_byte (u : Z) : u ∈ seqZ 1 255 -> Spec.byte u.
Proof. intros Hu%elem_of_seqZ. unfold Spec.byte. lia. Qed.

Lemma search_sweep :
  calculate_non_linearity sbox
  = Some (128 - Eval.sweep (Spec.bias sbox) (seqZ 1 255) (seqZ 1 255) 0).
Proof.
  unfold calculate_non_linearity.
  change (Py.range 1 256) with (seqZ 1 255).
  rewrite (for_each_total
             (fun mb v => fold_left (fun mb u => Z.max mb (Spec.bias sbox u v))
                                    (seqZ 1 255) mb)).
  - cbn [mbind option_bind]. unfold Eval.sweep. reflexivity.
  - intros mb v Hv. apply for_each_total.
    intros mb' u Hu. apply mask_body_eq; now apply mask_in_byte.
Qed.

(** The table is the list of its entries. *)
Lemma sbox_as_entries : sbox = Spec.entry sbox <$> seqZ 0 256.
Proof.
  apply list_eq. intros i. rewrite list_lookup_fmap.
  destruct (decide (i < 256)%nat) as [Hi|Hi].
  - rewrite lookup_seqZ_lt by lia. cbn [fmap option_fmap option_map].
    destruct (lookup_lt_is_Some_2 sbox i) as [y Hy]; [lia|].
    unfold Spec.entry. rewrite nth_lookup.
    replace (Z.to_nat (0 + Z.of_nat i)) with i by lia.
    now rewrite Hy.
  - rewrite lookup_seqZ_ge by lia.
    rewrite lookup_ge_None_2 by lia. reflexivity.
Qed.

End Table.

Lemma agree_fmap (f g e : Z -> Z) (xs : list Z) :
  Eval.agree (f <$> xs) (g <$> (e <$> xs))
  = Z.of_nat (List.length (List.filter (fun x => f x =? g (e x)) xs)).
Proof.
  induction xs as [|x xs IH]; [reflexivity|].
  cbn [fmap list_fmap Eval.agree List.filter].
  change (list_fmap _ _ ?h xs) with (h <$> xs).
  change (list_fmap Z Z g (e <$> xs)) with (g <$> (e <$> xs)).
  rewrite IH. destruct (f x =? g (e x)); cbn [List.length]; lia.
Qed.

Lemma agree_matches (sbox : list Z) (u v : Z) :
  length sbox = 256%nat ->
  Eval.agree (Eval.in_row u) (Eval.out_row sbox v) = Spec.matches sbox u v.
Proof.
  intros Hlen. unfold Eval.in_row, Eval.out_row.
  rewrite (sbox_as_entries sbox Hlen) at 1.
  rewrite agree_fmap. unfold Spec.matches, Spec.approx_holds. reflexivity.
Qed.

Lemma max_bias_sweep (sbox : list Z) :
  length sbox = 256%nat ->
  Eval.max_bias sbox = Eval.sweep (Spec.bias sbox) (seqZ 1 255) (seqZ 1 255) 0.
Proof.
  intros Hlen. unfold Eval.max_bias, Eval.sweep.
  apply fold_left_ext_elem. intros mb v _. cbv zeta.
  rewrite fold_left_fmap. apply fold_left_ext_elem. intros mb' u _.
  rewrite agree_matches by assumption. unfold Spec.bias. reflexivity.
Qed.

(** The running maximum bounds every value met, and is one of them or the
    start value. *)
Lemma sweep_ge_start (f : Z -> Z -> Z) (us vs : list Z) :
  forall m0, m0 <= Eval.sweep f us vs m0.
Proof.
  assert (forall v m0, m0 <= fold_left (fun mb u => Z.max mb (f u v)) us m0) as Hrow.
  { intros v. induction us as [|u us IH]; intros m0; cbn; [lia|].
    etrans; [|apply IH]. lia. }
  unfold Eval.sweep. induction vs as [|v vs IH]; intros m0; cbn; [lia|].
  etrans; [|apply IH]. apply Hrow.
Qed.

Lemma row_upper (g : Z -> Z) (us : list Z) (u : Z) :
  u ∈ us -> forall m0, g u <= fold_left (fun mb u => Z.max mb (g u)) us m0.
Proof.
  assert (forall xs m0, m0 <= fold_left (fun mb u => Z.max mb (g u)) xs m0) as Hge.
  { induction xs as [|x xs IH]; intros m0; cbn; [lia|].
    etrans; [|apply IH]. lia. }
  induction 1 as [u us|u u' us _ IH]; intros m0; cbn.
  - etrans; [|apply Hge]. lia.
  - apply IH.
Qed.

Lemma sweep_upper (f : Z -> Z -> Z) (us vs : list Z) (u v : Z) :
  u ∈ us -> v ∈ vs -> forall m0, f u v <= Eval.sweep f us vs m0.
Proof.
  intros Hu Hv. unfold Eval.sweep.
  induction Hv as [v vs|v v' vs _ IH]; intros m0; cbn.
  - etrans; [|apply (sweep_ge_start f us vs)].
    now apply (row_upper (fun u => f u v)).
  - apply IH.
Qed.

Lemma row_attained (g : Z -> Z) (us : list Z) :
  forall m0,
    let m := fold_left (fun mb u => Z.max mb (g u)) us m0 in
    m = m0 \/ exists u, u ∈ us /\ m = g u.
Proof.
  induction us as [|u us IH]; intros m0; cbn; [now left|].
  destruct (IH (Z.max m0 (g u))) as [Heq|(u' & Hu' & Heq)].
  - cbn in Heq. rewrite Heq.
    destruct (Z.max_spec m0 (g u)) as [[_ ->]|[_ ->]].
    + right. exists u. split; [constructor | reflexivity].
    + now left.
  - right. exists u'. split; [now constructor | exact Heq].
Qed.

Lemma sweep_attained (f : Z -> Z -> Z) (us vs : list Z) :
  forall m0,
    Eval.sweep f us vs m0 = m0
    \/ exists u v, u ∈ us /\ v ∈ vs /\ Eval.sweep f us vs m0 = f u v.
Proof.
  unfold Eval.sweep. induction vs as [|v vs IH]; intros m0; cbn; [now left|].
  destruct (IH (fold_left (fun mb u => Z.max mb (f u v)) us m0))
    as [Heq|(u' & v' & Hu' & Hv' & Heq)].
  - rewrite Heq.
    destruct (row_attained (fun u => f u v) us m0) as [Hrow|(u & Hu & Hrow)];
      cbn in Hrow.
    + now left.
    + right. exists u, v. split; [exact Hu|]. split; [constructor | exact Hrow].
  - right. exists u', v'. split; [exact Hu'|]. split; [now constructor | exact Heq].
Qed.

(** The search on a table of 256 entries: it returns, and what. *)
Lemma search_maximum (sbox : list Z) :
  length sbox = 256%nat ->
  exists m,
    calculate_non_linearity sbox = Some (128 - m)
    /\ 0 <= m <= 128
    /\ (forall u v, Spec.mask u -> Spec.mask v -> Spec.bias sbox u v <= m)
    /\ (exists u v, Spec.mask u /\ Spec.mask v /\ Spec.bias sbox u v = m).
Proof.
  intros Hlen.
  pose proof (search_sweep sbox Hlen) as Hrun.
  pose proof (sweep_attained (Spec.bias sbox) (seqZ 1 255) (seqZ 1 255) 0) as Hat.
  pose proof (fun u v Hu Hv =>
                sweep_upper (Spec.bias sbox) (seqZ 1 255) (seqZ 1 255) u v Hu Hv 0)
    as Hup.
  remember (Eval.sweep (Spec.bias sbox) (seqZ 1 255) (seqZ 1 255) 0) as m eqn:Hm.
  clear Hm.
  assert (forall u, Spec.mask u <-> u ∈ seqZ 1 255) as Hmask.
  { intros u. unfold Spec.mask. rewrite elem_of_seqZ. lia. }
  assert (Spec.mask 1) as Hone by (unfold Spec.mask; lia).
  assert (exists u v, Spec.mask u /\ Spec.mask v /\ Spec.bias sbox u v = m) as Hex.
  { destruct Hat as [Hz|(u & v & Hu & Hv & Heq)].
    - exists 1, 1. split; [exact Hone|]. split; [exact Hone|].
      pose proof (Hup 1 1 (proj1 (Hmask 1) Hone) (proj1 (Hmask 1) Hone)) as Hle.
      pose proof (bias_range sbox 1 1) as Hrange.
      revert Hle Hrange. generalize (Spec.bias sbox 1 1). intros b. lia.
    - exists u, v. split; [now apply Hmask|]. split; [now apply Hmask|].
      symmetry. exact Heq. }
  exists m. split; [exact Hrun|]. split; [|split].
  - destruct Hex as (u & v & _ & _ & <-). apply bias_range.
  - intros u v Hu Hv. apply Hup; now apply Hmask.
  - exact Hex.
Qed.

Lemma max_bias_table_checked :
  Eval.max_bias (affine_transform <$> Eval.inverse_table) = 16.
Proof. vm_cast_no_check (eq_refl 16). Qed.

Lemma max_bias_sbox_entries : Eval.max_bias Eval.sbox_entries = 16.
Proof. rewrite sbox_entries_table. exact max_bias_table_checked. Qed.

End Search.

(** ** The statements of the specification *)

(** C1: running the non-linearity analysis on the generated S-box returns
    exactly 112: [calculate_non_linearity(generate_sbox()) == 112]. *)
Theorem non_linearity_of_generated_sbox :
  generate_sbox ≫= calculate_non_linearity = Some 112.
Proof.
  rewrite generate_sbox_entries. cbn [mbind option_bind].
  rewrite (search_sweep _ sbox_entries_length).
  rewrite <- (max_bias_sweep _ sbox_entries_length).
  rewrite max_bias_sbox_entries. reflexivity.
Qed.

(** C2: the sequence returned by [generate_sbox()] is a permutation of
    [0, 255]: it has exactly 256 entries and every value in [0, 255] appears
    exactly once. *)
Theorem generate_sbox_permutation :
  exists sbox,
    generate_sbox = Some sbox
    /\ length sbox = 256%nat
    /\ sbox ≡ₚ seqZ 0 256
    /\ forall v, 0 <= v <= 255 -> count_occ Z.eq_dec sbox v = 1%nat.
Proof.
  exists Eval.sbox_entries.
  split; [apply generate_sbox_entries|].
  split; [apply sbox_entries_length|].
  split; [apply sbox_entries_Permutation|].
  intros v Hv. now apply sbox_entries_once.
Qed.

(** C3: [generate_sbox()] reproduces the published AES S-box at the reference
    entries: entry 0 is 0x63, entry 1 is 0x7C and entry 0x53 is 0xED. *)
Theorem generate_sbox_reference_entries :
  exists sbox,
    generate_sbox = Some sbox
    /\ Py.getitem sbox 0 = Some 0x63
    /\ Py.getitem sbox 1 = Some 0x7C
    /\ Py.getitem sbox 0x53 = Some 0xED.
Proof.
  exists Eval.sbox_entries. split; [apply generate_sbox_entries|].
  rewrite sbox_entries_table. exact reference_entries_checked.
Qed.

(** C4: the multiplicative-inverse contract: for every [a] in [1, 255],
    [gf_mult(a, gf_inverse(a)) == 1], and [gf_inverse(0) == 0]. *)
Theorem gf_inverse_contract (a : Z) :
  1 <= a <= 255 -> gf_mult a (gf_inverse a) = 1 /\ gf_inverse 0 = 0.
Proof.
  intros Ha. split; [|reflexivity].
  assert (Spec.byte a) as Hbyte by (unfold Spec.byte; lia).
  destruct (gf_inverse_facts a Hbyte) as (_ & _ & Hinv).
  apply Hinv. lia.
Qed.

Lemma gf_inverse_contract_witness :
  gf_mult 0x53 (gf_inverse 0x53) = 1 /\ gf_inverse 0 = 0.
Proof. apply (gf_inverse_contract 0x53). lia. Defined.

(** C5: for every [a], [b] in [0, 255], [gf_mult(a, b)] is the product of the
    polynomials [a] and [b] over GF(2) reduced modulo x^8+x^4+x^3+x+1 (0x11B):
    it is the remainder of the long division of the product by the modulus,
    it differs from the product by a multiple of the modulus, and it lies in
    [0, 255]. *)
Theorem gf_mult_polynomial (a b : Z) :
  0 <= a <= 255 -> 0 <= b <= 255 ->
  gf_mult a b = Spec.poly_mod (Spec.poly_mul a b) AES_MODULUS
  /\ (exists q, Spec.poly_mul a b = Z.lxor (Spec.poly_mul q AES_MODULUS) (gf_mult a b))
  /\ 0 <= gf_mult a b <= 255.
Proof.
  intros Ha Hb.
  destruct (gf_mult_poly_facts a b Ha Hb) as (Hmod & Hdiv & Hrange).
  split; [exact Hmod|]. split; [|exact Hrange].
  exists (Spec.poly_quot (Spec.poly_mul a b) AES_MODULUS). exact Hdiv.
Qed.

Lemma gf_mult_polynomial_witness :
  gf_mult 0x57 0x83 = Spec.poly_mod (Spec.poly_mul 0x57 0x83) AES_MODULUS
  /\ (exists q, Spec.poly_mul 0x57 0x83
                = Z.lxor (Spec.poly_mul q AES_MODULUS) (gf_mult 0x57 0x83))
  /\ 0 <= gf_mult 0x57 0x83 <= 255.
Proof. apply (gf_mult_polynomial 0x57 0x83); lia. Defined.

(** C6: field multiplication is commutative: for every [a], [b] in [0, 255],
    [gf_mult(a, b) == gf_mult(b, a)]. *)
Theorem gf_mult_comm (a b : Z) :
  0 <= a <= 255 -> 0 <= b <= 255 -> gf_mult a b = gf_mult b a.
Proof.
  intros Ha Hb. now apply gf_mult_comm_byte.
Qed.

Lemma gf_mult_comm_witness : gf_mult 0x57 0x83 = gf_mult 0x83 0x57.
Proof. apply (gf_mult_comm 0x57 0x83); lia. Defined.

(** C7: for every 256-entry sequence [sbox] whose entries all lie in
    [0, 255], [calculate_non_linearity(sbox)] returns an integer in [0, 128],
    equal to 128 minus the maximum over all nonzero mask pairs [(u, v)] of
    [|matches - 128|], where [matches] counts the [x] in [0, 255] with
    [parity(u & x) == parity(v & sbox[x])]. *)
Theorem calculate_non_linearity_spec (sbox : list Z) :
  length sbox = 256%nat ->
  Forall (fun s => 0 <= s <= 255) sbox ->
  exists m,
    Spec.is_max_bias sbox m
    /\ calculate_non_linearity sbox = Some (128 - m)
    /\ 0 <= 128 - m <= 128.
Proof.
  intros Hlen _.
  destruct (search_maximum sbox Hlen) as (m & Hrun & Hm & Hup & Hex).
  exists m. split; [split; assumption|]. split; [exact Hrun | lia].
Qed.

Lemma calculate_non_linearity_spec_witness :
  exists m,
    Spec.is_max_bias (seqZ 0 256) m
    /\ calculate_non_linearity (seqZ 0 256) = Some (128 - m)
    /\ 0 <= 128 - m <= 128.
Proof.
  apply (calculate_non_linearity_spec (seqZ 0 256)).
  - vm_compute. reflexivity.
  - apply Forall_seqZ. intros s Hs. lia.
Defined.

(** C8: [gf_inverse] is an involution on the field: for every [a] in
    [0, 255], [gf_inverse(gf_inverse(a)) == a]. *)
Theorem gf_inverse_involutive (a : Z) :
  0 <= a <= 255 -> gf_inverse (gf_inverse a) = a.
Proof. intros Ha. now apply gf_inverse_involutive_byte. Qed.

Lemma gf_inverse_involutive_witness : gf_inverse (gf_inverse 0x53) = 0x53.
Proof. apply (gf_inverse_involutive 0x53). lia. Defined.

(** C9: [affine_transform] is a bijection from [0, 255] onto [0, 255]: its
    output always lies in [0, 255] (for any integer [x]), distinct inputs in
    [0, 255] map to distinct outputs, and every value in [0, 255] is the
    output of some input in [0, 255]. *)
Theorem affine_transform_bijection (x a b : Z) :
  0 <= a <= 255 -> 0 <= b <= 255 ->
  0 <= affine_transform x <= 255
  /\ (a <> b -> affine_transform a <> affine_transform b)
  /\ (exists a', 0 <= a' <= 255 /\ affine_transform a' = b).
Proof.
  intros Ha Hb. split; [apply affine_transform_range|]. split.
  - intros Hne Heq. apply Hne. now apply affine_transform_injective.
  - now apply affine_transform_surjective.
Qed.

Lemma affine_transform_bijection_witness :
  0 <= affine_transform (-1) <= 255
  /\ (0 <> 1 -> affine_transform 0 <> affine_transform 1)
  /\ (exists a', 0 <= a' <= 255 /\ affine_transform a' = 1).
Proof. apply (affine_transform_bijection (-1) 0 1); lia. Defined.

(** C10: [gf_mult] reads only the low 8 bits of its second operand: for every
    [a] in [0, 255] and every non-negative integer [b],
    [gf_mult(a, b) == gf_mult(a, b mod 256)]. *)
Theorem gf_mult_second_operand_low_byte (a b : Z) :
  0 <= a <= 255 -> 0 <= b -> gf_mult a b = gf_mult a (b mod 256).
Proof. intros _ _. apply gf_mult_mod_256. Qed.

Lemma gf_mult_second_operand_low_byte_witness :
  gf_mult 0x57 0x283 = gf_mult 0x57 (0x283 mod 256).
Proof. apply (gf_mult_second_operand_low_byte 0x57 0x283); lia. Defined.

(** * Further lemmas *)

(** ** The field laws *)

Section FieldLaws.

(** Identities between exclusive ors, bit by bit. *)
Ltac xor_bits :=
  apply Z.bits_inj'; intros ? ?;
  repeat (rewrite Z.lxor_spec || rewrite Z.land_spec || rewrite Z.bits_0);
  repeat match goal with
         | |- context [Z.testbit ?x ?n] => destruct (Z.testbit x n)
         end;
  reflexivity.

Lemma land_lxor_distr (a b c : Z) :
  Z.land (Z.lxor a b) c = Z.lxor (Z.land a c) (Z.land b c).
Proof. xor_bits. Qed.

Lemma land_128_cases (a : Z) :
  Z.land a 0x80 = if Z.testbit a 7 then 0x80 else 0.
Proof.
  apply Z.bits_inj'. intros n Hn. rewrite Z.land_spec.
  change 0x80 with (2 ^ 7). rewrite Z.pow2_bits_eqb by lia.
  destruct (Z.eqb_spec 7 n) as [<-|Hne].
  - destruct (Z.testbit a 7); [|now rewrite Z.bits_0].
    now rewrite Z.pow2_bits_true.
  - rewrite andb_false_r. destruct (Z.testbit a 7); [|now rewrite Z.bits_0].
    rewrite Z.pow2_bits_false by lia. reflexivity.
Qed.

Lemma gf_mult_body_round (p a b : Z) :
  gf_mult_body (p, a, b)
  = (if Z.testbit b 0 then Z.lxor p a else p, Field.xtime a, Z.shiftr b 1).
Proof.
  unfold gf_mult_body, Field.xtime. rewrite land_1_testbit.
  destruct (Z.testbit b 0); reflexivity.
Qed.

Lemma xtime_lxor : Field.additive Field.xtime.
Proof.
  intros a a'. unfold Field.xtime.
  rewrite Z.shiftl_lxor, !land_lxor_distr, !land_128_cases.
  generalize (Z.land (Z.shiftl a 1) 0xFF) (Z.land (Z.shiftl a' 1) 0xFF).
  intros s s'.
  destruct (Z.testbit a 7), (Z.testbit a' 7); simpl;
    xor_bits.
Qed.

(** The accumulator of the rounds is additive in the first operand... *)
Lemma rounds_add_l (n : nat) :
  forall p p' a a' b,
    fst (fst (Py.repeat_body n gf_mult_body (Z.lxor p p', Z.lxor a a', b)))
    = Z.lxor (fst (fst (Py.repeat_body n gf_mult_body (p, a, b))))
             (fst (fst (Py.repeat_body n gf_mult_body (p', a', b)))).
Proof.
  induction n as [|n IH]; intros p p' a a' b; [reflexivity|].
  cbn [Py.repeat_body]. rewrite !gf_mult_body_round, xtime_lxor.
  destruct (Z.testbit b 0); rewrite <- IH; [|reflexivity].
  assert (Z.lxor (Z.lxor p p') (Z.lxor a a') = Z.lxor (Z.lxor p a) (Z.lxor p' a'))
    as -> by xor_bits.
  reflexivity.
Qed.

(** ... and in the second. *)
Lemma rounds_add_r (n : nat) :
  forall p p' a b b',
    fst (fst (Py.repeat_body n gf_mult_body (Z.lxor p p', a, Z.lxor b b')))
    = Z.lxor (fst (fst (Py.repeat_body n gf_mult_body (p, a, b))))
             (fst (fst (Py.repeat_body n gf_mult_body (p', a, b')))).
Proof.
  induction n as [|n IH]; intros p p' a b b'; [reflexivity|].
  cbn [Py.repeat_body]. rewrite !gf_mult_body_round, Z.shiftr_lxor.
  rewrite Z.lxor_spec.
  destruct (Z.testbit b 0), (Z.testbit b' 0); cbn [xorb]; rewrite <- IH;
    try reflexivity.
  - assert (Z.lxor p p' = Z.lxor (Z.lxor p a) (Z.lxor p' a)) as <- by xor_bits.
    reflexivity.
  - assert (Z.lxor (Z.lxor p p') a = Z.lxor (Z.lxor p a) p') as -> by xor_bits.
    reflexivity.
  - assert (Z.lxor (Z.lxor p p') a = Z.lxor p (Z.lxor p' a)) as -> by xor_bits.
    reflexivity.
Qed.

Lemma gf_mult_rounds (a b : Z) :
  gf_mult a b = fst (fst (Py.repeat_body 8 gf_mult_body (0, a, b))).
Proof.
  unfold gf_mult.
  destruct (Py.repeat_body 8 gf_mult_body (0, a, b)) as [[p a'] b'].
  reflexivity.
Qed.

Lemma gf_mult_add_l (a a' b : Z) :
  gf_mult (Z.lxor a a') b = Z.lxor (gf_mult a b) (gf_mult a' b).
Proof.
  rewrite !gf_mult_rounds, <- rounds_add_l. reflexivity.
Qed.

Lemma gf_mult_add_r (a b b' : Z) :
  gf_mult a (Z.lxor b b') = Z.lxor (gf_mult a b) (gf_mult a b').
Proof.
  rewrite !gf_mult_rounds, <- rounds_add_r. reflexivity.
Qed.

(** A zero operand. *)
Lemma rounds_zero_r (n : nat) :
  forall p a, fst (fst (Py.repeat_body n gf_mult_body (p, a, 0))) = p.
Proof.
  induction n as [|n IH]; intros p a; [reflexivity|].
  cbn [Py.repeat_body]. rewrite gf_mult_body_round.
  change (Z.testbit 0 0) with false. change (Z.shiftr 0 1) with 0. apply IH.
Qed.

Lemma rounds_zero_l (n : nat) :
  forall p b, fst (fst (Py.repeat_body n gf_mult_body (p, 0, b))) = p.
Proof.
  induction n as [|n IH]; intros p b; [reflexivity|].
  cbn [Py.repeat_body]. rewrite gf_mult_body_round.
  change (Field.xtime 0) with 0. rewrite Z.lxor_0_r.
  destruct (Z.testbit b 0); apply IH.
Qed.

Lemma gf_mult_0_r (a : Z) : gf_mult a 0 = 0.
Proof. rewrite gf_mult_rounds. apply rounds_zero_r. Qed.

Lemma gf_mult_0_l (b : Z) : gf_mult 0 b = 0.
Proof. rewrite gf_mult_rounds. apply rounds_zero_l. Qed.

Lemma gf_mult_1_r (a : Z) : gf_mult a 1 = a.
Proof.
  rewrite gf_mult_rounds.
  change (Py.repeat_body 8 gf_mult_body (0, a, 1))
    with (Py.repeat_body 7 gf_mult_body (gf_mult_body (0, a, 1))).
  rewrite gf_mult_body_round.
  change (Z.testbit 1 0) with true. change (Z.shiftr 1 1) with 0. cbv iota.
  rewrite rounds_zero_r. apply Z.lxor_0_l.
Qed.

Lemma gf_mult_1_l (b : Z) : gf_mult 1 b = b mod 256.
Proof.
  rewrite gf_mult_mod_256.
  assert (Spec.byte (b mod 256)) as Hb.
  { unfold Spec.byte. pose proof (Z.mod_pos_bound b 256). lia. }
  rewrite gf_mult_comm_byte; [apply gf_mult_1_r | unfold Spec.byte; lia | exact Hb].
Qed.

(** A byte is the sum of its parts at bits 0 to 7. *)
Lemma byte_parts_checked :
  Eval.all_bytes
    (fun a => a =? fold_right (fun i s => Z.lxor (Field.bit_part a i) s) 0 (seqZ 0 8))
  = true.
Proof. vm_cast_no_check (eq_refl true). Qed.

Lemma additive_0 (f : Z -> Z) : Field.additive f -> f 0 = 0.
Proof.
  intros Hf. pose proof (Hf 0 0) as H. rewrite Z.lxor_0_l in H.
  rewrite H at 1. apply Z.lxor_nilpotent.
Qed.

(** Two additive maps that agree on the bytes with one bit set agree on all
    bytes. *)
Lemma additive_basis (f g : Z -> Z) :
  Field.additive f -> Field.additive g ->
  Forall (fun e => f e = g e) Field.basis ->
  forall a, Spec.byte a -> f a = g a.
Proof.
  intros Hf Hg Hbasis a Ha.
  assert (forall i, 0 <= i < 8 -> f (Field.bit_part a i) = g (Field.bit_part a i))
    as Hpart.
  { intros i Hi. unfold Field.bit_part. destruct (Z.testbit a i).
    - rewrite Forall_forall in Hbasis. apply Hbasis.
      assert (i = 0 \/ i = 1 \/ i = 2 \/ i = 3 \/ i = 4 \/ i = 5 \/ i = 6 \/ i = 7)
        as Hcase by lia.
      apply list_elem_of_In.
      repeat (destruct Hcase as [->|Hcase]; [vm_compute; auto 10|]).
      subst i. vm_compute. auto 10.
    - now rewrite !additive_0. }
  pose proof (all_bytes_correct _ byte_parts_checked a Ha) as Hsum.
  cbv beta in Hsum. apply Z.eqb_eq in Hsum.
  change (seqZ 0 8) with [0; 1; 2; 3; 4; 5; 6; 7] in Hsum.
  cbn [fold_right] in Hsum. rewrite Hsum.
  rewrite !Hf, !Hg.
  rewrite (Hpart 0), (Hpart 1), (Hpart 2), (Hpart 3), (Hpart 4), (Hpart 5),
    (Hpart 6), (Hpart 7) by lia.
  now rewrite (additive_0 f), (additive_0 g).
Qed.

Lemma assoc_basis_checked :
  forallb
    (fun x => forallb
       (fun y => forallb
          (fun z => gf_mult (gf_mult x y) z =? gf_mult x (gf_mult y z))
          Field.basis)
       Field.basis)
    Field.basis = true.
Proof. vm_cast_no_check (eq_refl true). Qed.

Lemma gf_mult_assoc_byte (a b c : Z) :
  Spec.byte a -> Spec.byte b -> Spec.byte c ->
  gf_mult (gf_mult a b) c = gf_mult a (gf_mult b c).
Proof.
  intros Ha Hb Hc. revert a Ha.
  apply (additive_basis (fun a => gf_mult (gf_mult a b) c)
                        (fun a => gf_mult a (gf_mult b c))).
  { intros x y. now rewrite !gf_mult_add_l. }
  { intros x y. now rewrite !gf_mult_add_l. }
  apply Forall_forall. intros x Hx. revert b Hb.
  apply (additive_basis (fun b => gf_mult (gf_mult x b) c)
                        (fun b => gf_mult x (gf_mult b c))).
  { intros y y'. now rewrite gf_mult_add_r, gf_mult_add_l. }
  { intros y y'. now rewrite gf_mult_add_l, gf_mult_add_r. }
  apply Forall_forall. intros y Hy. revert c Hc.
  apply (additive_basis (fun c => gf_mult (gf_mult x y) c)
                        (fun c => gf_mult x (gf_mult y c))).
  { intros z z'. now rewrite gf_mult_add_r. }
  { intros z z'. now rewrite !gf_mult_add_r. }
  apply Forall_forall. intros z Hz.
  pose proof assoc_basis_checked as H.
  rewrite forallb_forall in H. specialize (H x (proj1 (list_elem_of_In _ _) Hx)).
  rewrite forallb_forall in H. specialize (H y (proj1 (list_elem_of_In _ _) Hy)).
  rewrite forallb_forall in H. specialize (H z (proj1 (list_elem_of_In _ _) Hz)).
  now apply Z.eqb_eq.
Qed.

Lemma gf_mult_byte (a b : Z) : Spec.byte a -> Spec.byte b -> Spec.byte (gf_mult a b).
Proof. intros Ha Hb. now destruct (gf_mult_poly_facts a b Ha Hb) as (_ & _ & H). Qed.

(** Only the inverse multiplies to 1. *)
Lemma gf_inverse_unique_byte (a b : Z) :
  Spec.byte a -> Spec.byte b -> gf_mult a b = 1 -> b = gf_inverse a.
Proof.
  intros Ha Hb Hab.
  assert (a <> 0) as Hne.
  { intros ->. rewrite gf_mult_0_l in Hab. discriminate. }
  destruct (gf_inverse_facts a Ha) as (Hi & _ & Hinv). specialize (Hinv Hne).
  rewrite <- (gf_mult_1_r b), <- Hinv.
  rewrite <- gf_mult_assoc_byte by assumption.
  rewrite (gf_mult_comm_byte b a) by assumption. rewrite Hab.
  rewrite gf_mult_1_l. apply Z.mod_small. unfold Spec.byte in Hi. lia.
Qed.

(** A product is zero only when an operand is. *)
Lemma gf_mult_zero_byte (a b : Z) :
  Spec.byte a -> Spec.byte b -> gf_mult a b = 0 -> a = 0 \/ b = 0.
Proof.
  intros Ha Hb Hab. destruct (Z.eq_dec a 0) as [|Hne]; [now left|right].
  destruct (gf_inverse_facts a Ha) as (Hi & _ & Hinv). specialize (Hinv Hne).
  assert (gf_mult (gf_mult (gf_inverse a) a) b = b) as Hb1.
  { rewrite (gf_mult_comm_byte (gf_inverse a) a), Hinv by assumption.
    rewrite gf_mult_1_l. apply Z.mod_small. unfold Spec.byte in Hb. lia. }
  rewrite gf_mult_assoc_byte, Hab, gf_mult_0_r in Hb1 by assumption.
  now symmetry.
Qed.

End FieldLaws.

Section AffineBits.

Lemma lxor_b2z (x y : bool) : Z.lxor (Z.b2z x) (Z.b2z y) = Z.b2z (xorb x y).
Proof. destruct x, y; reflexivity. Qed.

Lemma testbit_b2z (x : bool) (j : Z) : Z.testbit (Z.b2z x) j = x && (j =? 0).
Proof. destruct x, j; reflexivity. Qed.

Lemma affine_bit_row (b i : Z) :
  0 <= i < 8 -> affine_bit b i = Z.b2z (Affine.row b i).
Proof.
  intros Hi. unfold affine_bit, Affine.row.
  pose proof (Z.mod_pos_bound (i + 4) 8). pose proof (Z.mod_pos_bound (i + 5) 8).
  pose proof (Z.mod_pos_bound (i + 6) 8). pose proof (Z.mod_pos_bound (i + 7) 8).
  rewrite !land_1_testbit, !Z.shiftr_spec, !Z.add_0_l by lia.
  rewrite !lxor_b2z. reflexivity.
Qed.

(** Putting eight bits together with shifts and ors gives them back. *)
Lemma assemble_testbit (bits : Z -> bool) (k : Z) :
  0 <= k ->
  Z.testbit
    (fold_left (fun new_b i => Z.lor new_b (Z.shiftl (Z.b2z (bits i)) i))
               (Py.range 0 8) 0) k
  = (k <? 8) && bits k.
Proof.
  intros Hk. change (Py.range 0 8) with [0; 1; 2; 3; 4; 5; 6; 7].
  cbn [fold_left].
  rewrite !Z.lor_spec, Z.bits_0, !Z.shiftl_spec, !testbit_b2z by lia.
  destruct (Z.ltb_spec k 8) as [Hlt|Hge].
  - assert (k = 0 \/ k = 1 \/ k = 2 \/ k = 3 \/ k = 4 \/ k = 5 \/ k = 6 \/ k = 7)
      as Hcase by lia.
    repeat (destruct Hcase as [->|Hcase];
            [cbn [Z.sub Z.eqb Z.add Z.opp Z.pos_sub Pos.pred_double Z.succ_double
                  Z.pred_double Z.double Pos.eqb];
             rewrite ?andb_false_r, ?andb_true_r, ?orb_false_r, ?orb_false_l;
             reflexivity|]).
    subst k. cbn. rewrite ?andb_false_r, ?andb_true_r, ?orb_false_r, ?orb_false_l.
    reflexivity.
  - repeat match goal with
           | |- context [?j =? 0] =>
               destruct (Z.eqb_spec j 0) as [Heq|_]; [exfalso; lia|]
           end.
    rewrite ?andb_false_r. reflexivity.
Qed.

Lemma affine_transform_testbit (b k : Z) :
  Z.testbit (affine_transform b) k = (0 <=? k) && (k <? 8) && Affine.row b k.
Proof.
  destruct (Z.leb_spec 0 k) as [Hk|Hk]; [|now rewrite Z.testbit_neg_r by lia].
  unfold affine_transform.
  rewrite (fold_left_ext_elem _
             (fun new_b i => Z.lor new_b (Z.shiftl (Z.b2z (Affine.row b i)) i))).
  - now rewrite assemble_testbit.
  - intros new_b i Hi. unfold Py.range in Hi. apply elem_of_seqZ in Hi.
    now rewrite affine_bit_row by lia.
Qed.

Lemma row_lxor (a b i : Z) :
  Affine.row (Z.lxor a b) i
  = xorb (xorb (Affine.row a i) (Affine.row b i)) (Z.testbit 0x63 i).
Proof. unfold Affine.row. rewrite !Z.lxor_spec. btauto. Qed.

Lemma affine_transform_lxor (a b : Z) :
  affine_transform (Z.lxor a b)
  = Z.lxor (Z.lxor (affine_transform a) (affine_transform b)) 0x63.
Proof.
  apply Z.bits_inj'. intros k Hk.
  rewrite !Z.lxor_spec, !affine_transform_testbit, row_lxor.
  destruct (Z.leb_spec 0 k) as [_|]; [|lia].
  destruct (Z.ltb_spec k 8) as [Hlt|Hge]; cbn [andb].
  - btauto.
  - rewrite (Z.bits_above_log2 0x63 k) by (cbn; lia). reflexivity.
Qed.

End AffineBits.

Section SearchEdges.

Lemma for_each_ext {S : Type} (body body' : S -> Z -> option S) (xs : list Z) :
  (forall s x, x ∈ xs -> body s x = body' s x) ->
  forall s, Py.for_each xs body s = Py.for_each xs body' s.
Proof.
  induction xs as [|x xs IH]; intros Hbody s; [reflexivity|].
  cbn [Py.for_each]. rewrite Hbody by constructor.
  destruct (body' s x) as [s'|]; [|reflexivity].
  apply IH. intros s'' y Hy. apply Hbody. now constructor.
Qed.

(** A loop with a round that always raises raises. *)
Lemma for_each_raises {S : Type} (body : S -> Z -> option S) (xs : list Z) (x : Z) :
  x ∈ xs -> (forall s, body s x = None) ->
  forall s, Py.for_each xs body s = None.
Proof.
  intros Hx Hnone. induction xs as [|y xs IH]; intros s.
  - now apply elem_of_nil in Hx.
  - cbn [Py.for_each]. apply elem_of_cons in Hx as [<-|Hx].
    + now rewrite Hnone.
    + destruct (body s y) as [s'|]; [now apply IH | reflexivity].
Qed.

Lemma short_table_raises (sbox : list Z) :
  (length sbox < 256)%nat -> calculate_non_linearity sbox = None.
Proof.
  intros Hlen. unfold calculate_non_linearity.
  assert (forall u v matches,
             match_body sbox u v matches (Z.of_nat (length sbox)) = None) as Hread.
  { intros u v matches. unfold match_body, Py.getitem.
    destruct (Z.leb_spec 0 (Z.of_nat (length sbox))) as [_|]; [|lia].
    rewrite Nat2Z.id, (lookup_ge_None_2 sbox) by lia. reflexivity. }
  assert (forall v max_bias, mask_body sbox v max_bias 1 = None) as Hmask.
  { intros v max_bias. unfold mask_body.
    rewrite (for_each_raises _ _ (Z.of_nat (length sbox))); [reflexivity| |].
    - unfold Py.range. apply elem_of_seqZ. lia.
    - intros s. apply Hread. }
  rewrite (for_each_raises _ _ 1); [reflexivity| |].
  - unfold Py.range. apply elem_of_seqZ. lia.
  - intros s. apply (for_each_raises _ _ 1).
    + unfold Py.range. apply elem_of_seqZ. lia.
    + intros s'. apply Hmask.
Qed.

Lemma getitem_take (sbox : list Z) (x : Z) :
  0 <= x < 256 -> Py.getitem (take 256 sbox) x = Py.getitem sbox x.
Proof.
  intros Hx. unfold Py.getitem.
  destruct (Z.leb_spec 0 x) as [_|]; [|lia].
  apply lookup_take_lt. lia.
Qed.

(** Only the first 256 entries of the table are read. *)
Lemma search_take (sbox : list Z) :
  calculate_non_linearity sbox = calculate_non_linearity (take 256 sbox).
Proof.
  unfold calculate_non_linearity. f_equal.
  apply for_each_ext. intros mb v _.
  apply for_each_ext. intros mb' u _.
  unfold mask_body. f_equal.
  apply for_each_ext. intros m x Hx.
  unfold Py.range in Hx. apply elem_of_seqZ in Hx.
  unfold match_body. now rewrite getitem_take by lia.
Qed.

Lemma search_long_table (sbox : list Z) :
  (256 <= length sbox)%nat ->
  exists score, calculate_non_linearity sbox = Some score /\ 0 <= score <= 128.
Proof.
  intros Hlen. rewrite search_take.
  destruct (search_maximum (take 256 sbox)) as (m & Hrun & Hm & _).
  - now apply length_take_le.
  - exists (128 - m). split; [exact Hrun | lia].
Qed.

Lemma search_raises_iff (sbox : list Z) :
  calculate_non_linearity sbox = None <-> (length sbox < 256)%nat.
Proof.
  split; [|apply short_table_raises].
  intros Hnone. destruct (Nat.lt_ge_cases (length sbox) 256) as [|Hge]; [assumption|].
  destruct (search_long_table sbox Hge) as (score & Hrun & _). congruence.
Qed.

Lemma bias_perfect (sbox : list Z) (u v : Z) :
  Spec.matches sbox u v = 256 \/ Spec.matches sbox u v = 0 ->
  Spec.bias sbox u v = 128.
Proof. unfold Spec.bias. intros [->| ->]; reflexivity. Qed.

(** An approximation that holds at every input, or at none, brings the score
    to 0. *)
Lemma search_perfect_approximation (sbox : list Z) (u v : Z) :
  length sbox = 256%nat -> Spec.mask u -> Spec.mask v ->
  Spec.matches sbox u v = 256 \/ Spec.matches sbox u v = 0 ->
  calculate_non_linearity sbox = Some 0.
Proof.
  intros Hlen Hu Hv Hperfect.
  destruct (search_maximum sbox Hlen) as (m & Hrun & Hm & Hup & _).
  specialize (Hup u v Hu Hv). rewrite (bias_perfect _ _ _ Hperfect) in Hup.
  rewrite Hrun. f_equal. lia.
Qed.

End SearchEdges.

Section TableEntries.

(** Reading the table at a byte. *)
Lemma sbox_entries_getitem (i : Z) :
  Spec.byte i ->
  Py.getitem Eval.sbox_entries i = Some (affine_transform (gf_inverse i)).
Proof.
  unfold Spec.byte. intros Hi. unfold Py.getitem, Eval.sbox_entries.
  destruct (Z.leb_spec 0 i) as [_|]; [|lia].
  rewrite list_lookup_fmap, lookup_seqZ_lt by lia.
  cbn [fmap option_fmap option_map]. do 3 f_equal. lia.
Qed.

Lemma no_fixed_point_checked :
  Eval.all_bytes
    (fun i =>
       let s := affine_transform (Spec.entry Eval.inverse_table i) in
       negb (s =? i) && negb (s =? Z.lxor i 0xFF)) = true.
Proof. vm_cast_no_check (eq_refl true). Qed.

Lemma substitute_no_fixed_point (i : Z) :
  Spec.byte i ->
  affine_transform (gf_inverse i) <> i
  /\ affine_transform (gf_inverse i) <> Z.lxor i 0xFF.
Proof.
  intros Hi. pose proof (all_bytes_correct _ no_fixed_point_checked i Hi) as H.
  cbv beta zeta in H. rewrite (inverse_table_entry i Hi) in H.
  apply andb_prop in H as [H1 H2].
  apply negb_true_iff in H1, H2. apply Z.eqb_neq in H1, H2. now split.
Qed.

End TableEntries.

(** ** Texts *)

Section Texts.

Lemma append_assoc (a b c : string) :
  String.append (String.append a b) c = String.append a (String.append b c).
Proof. induction a as [|x a IH]; cbn; [reflexivity | now rewrite IH]. Qed.

Lemma append_nil_r (a : string) : String.append a "" = a.
Proof. induction a as [|x a IH]; cbn; [reflexivity | now rewrite IH]. Qed.

Lemma length_append (a b : string) :
  String.length (String.append a b) = (String.length a + String.length b)%nat.
Proof. induction a as [|x a IH]; cbn; [reflexivity | now rewrite IH]. Qed.

(** Two texts that start with parts of the same length agree part by part. *)
Lemma append_inj (a a' b b' : string) :
  String.length a = String.length a' ->
  String.append a b = String.append a' b' -> a = a' /\ b = b'.
Proof.
  revert a'. induction a as [|x a IH]; intros [|x' a'] Hlen Heq;
    cbn in Hlen; try discriminate.
  - now split.
  - cbn in Heq. injection Heq as -> Heq. injection Hlen as Hlen.
    destruct (IH a' Hlen Heq) as [-> ->]. now split.
Qed.

Lemma length_join (f : Z -> string) (n : nat) (xs : list Z) :
  (forall x, x ∈ xs -> String.length (f x) = n) ->
  String.length (Out.join (f <$> xs)) = (length xs * n)%nat.
Proof.
  induction xs as [|x xs IH]; intros Hlen; [reflexivity|].
  cbn [fmap list_fmap Out.join fold_right length Nat.mul].
  rewrite length_append, Hlen by constructor. f_equal.
  apply IH. intros y Hy. apply Hlen. now constructor.
Qed.

Lemma join_inj (f g : Z -> string) (xs : list Z) :
  (forall x, x ∈ xs -> String.length (f x) = String.length (g x)) ->
  Out.join (f <$> xs) = Out.join (g <$> xs) ->
  forall x, x ∈ xs -> f x = g x.
Proof.
  induction xs as [|y xs IH]; intros Hlen Heq x Hx.
  - now apply elem_of_nil in Hx.
  - cbn [fmap list_fmap Out.join fold_right] in Heq.
    apply append_inj in Heq as [Hy Hrest]; [|apply Hlen; constructor].
    apply elem_of_cons in Hx as [->|Hx]; [exact Hy|].
    apply IH; [|exact Hrest|exact Hx].
    intros z Hz. apply Hlen. now constructor.
Qed.

End Texts.

(** ** What printing writes *)

Section Writing.

Lemma writes_ret {A : Type} (a : A) : Out.writes (IO.ret a) "" a.
Proof. intros out. unfold IO.ret. now rewrite append_nil_r. Qed.

Lemma writes_eval {A : Type} (a : A) : Out.writes (IO.eval (Some a)) "" a.
Proof. intros out. unfold IO.eval. now rewrite append_nil_r. Qed.

Lemma writes_print (s e : string) : Out.writes (IO.print s e) (String.append s e) tt.
Proof. intros out. reflexivity. Qed.

Lemma writes_bind {A B : Type} (m : IO.io A) (k : A -> IO.io B)
      (t t' : string) (a : A) (b : B) :
  Out.writes m t a -> Out.writes (k a) t' b ->
  Out.writes (IO.bind m k) (String.append t t') b.
Proof.
  intros Hm Hk out. unfold IO.bind. rewrite Hm, Hk. now rewrite append_assoc.
Qed.

Lemma writes_for_each (body : Z -> IO.io unit) (f : Z -> string) (xs : list Z) :
  (forall x, x ∈ xs -> Out.writes (body x) (f x) tt) ->
  Out.writes (IO.for_each xs body) (Out.join (f <$> xs)) tt.
Proof.
  induction xs as [|x xs IH]; intros Hbody.
  - apply writes_ret.
  - cbn [IO.for_each fmap list_fmap Out.join fold_right].
    apply (writes_bind _ _ _ _ tt); [apply Hbody; constructor|].
    apply IH. intros y Hy. apply Hbody. now constructor.
Qed.

Lemma raises_bind_l {A B : Type} (m : IO.io A) (k : A -> IO.io B) :
  Out.raises m -> Out.raises (IO.bind m k).
Proof.
  intros Hm out. unfold IO.bind. specialize (Hm out).
  destruct (m out) as [out' [a|]]; [discriminate | reflexivity].
Qed.

Lemma raises_bind_r {A B : Type} (m : IO.io A) (k : A -> IO.io B) :
  (forall a, Out.raises (k a)) -> Out.raises (IO.bind m k).
Proof.
  intros Hk out. unfold IO.bind.
  destruct (m out) as [out' [a|]]; [apply Hk | reflexivity].
Qed.

Lemma raises_for_each (body : Z -> IO.io unit) (xs : list Z) (x : Z) :
  x ∈ xs -> Out.raises (body x) -> Out.raises (IO.for_each xs body).
Proof.
  intros Hx Hbody. induction xs as [|y xs IH].
  - now apply elem_of_nil in Hx.
  - cbn [IO.for_each]. apply elem_of_cons in Hx as [<-|Hx].
    + now apply raises_bind_l.
    + apply raises_bind_r. intros _. now apply IH.
Qed.

Lemma writes_not_raises {A : Type} (m : IO.io A) (t : string) (a : A) :
  Out.writes m t a -> ~ Out.raises m.
Proof. intros Hw Hr. specialize (Hr ""%string). now rewrite Hw in Hr. Qed.

End Writing.

(** ** Printing the table *)

Section Printing.

Lemma writes_eval_bind {A B : Type} (o : option A) (k : A -> IO.io B)
      (a : A) (t : string) (b : B) :
  o = Some a -> Out.writes (k a) t b -> Out.writes (IO.bind (IO.eval o) k) t b.
Proof. intros -> Hk out. unfold IO.bind, IO.eval. apply Hk. Qed.

Lemma print_sbox_writes (sbox : list Z) :
  (256 <= length sbox)%nat ->
  Out.writes (print_sbox sbox) (Out.table_text sbox) tt.
Proof.
  intros Hlen. unfold print_sbox, Out.table_text.
  change (Py.range 0 16) with (seqZ 0 16).
  apply (writes_bind _ _ _ _ tt); [apply writes_print|].
  apply (writes_bind _ _ _ _ tt); [apply writes_print|].
  apply (writes_bind _ _ _ _ tt); [apply writes_print|].
  apply writes_for_each. intros row Hrow%elem_of_seqZ. unfold Out.row_text.
  apply (writes_bind _ _ _ _ tt); [apply writes_print|].
  apply (writes_bind _ _ _ _ tt); [|apply writes_print].
  apply writes_for_each. intros col Hcol%elem_of_seqZ. unfold Out.cell_text.
  apply (writes_eval_bind _ _ (Spec.entry sbox (row * 16 + col))).
  - apply getitem_entry. lia.
  - apply writes_print.
Qed.

Lemma print_sbox_raises (sbox : list Z) :
  (length sbox < 256)%nat -> Out.raises (print_sbox sbox).
Proof.
  intros Hlen. unfold print_sbox.
  do 3 (apply raises_bind_r; intros _).
  set (n := Z.of_nat (length sbox)).
  apply (raises_for_each _ _ (n / 16)).
  { unfold Py.range. apply elem_of_seqZ. subst n. Z.div_mod_to_equations. lia. }
  apply raises_bind_r. intros _. apply raises_bind_l.
  apply (raises_for_each _ _ (n mod 16)).
  { unfold Py.range. apply elem_of_seqZ. subst n. Z.div_mod_to_equations. lia. }
  apply raises_bind_l. intros out.
  replace (n / 16 * 16 + n mod 16) with n by (Z.div_mod_to_equations; lia).
  unfold IO.eval, Py.getitem. subst n. cbn [snd].
  destruct (Z.leb_spec 0 (Z.of_nat (length sbox))) as [_|]; [|lia].
  rewrite Nat2Z.id. apply lookup_ge_None_2. lia.
Qed.

Lemma format_02X_checked :
  Eval.all_bytes
    (fun v => (Nat.eqb (String.length (IO.format_02X v)) 2)
              && (Out.hex_value (IO.format_02X v) =? v)) = true.
Proof. vm_cast_no_check (eq_refl true). Qed.

Lemma format_02X_byte (v : Z) :
  Spec.byte v ->
  String.length (IO.format_02X v) = 2%nat /\ Out.hex_value (IO.format_02X v) = v.
Proof.
  intros Hv. pose proof (all_bytes_correct _ format_02X_checked v Hv) as H.
  cbv beta in H. apply andb_prop in H as [Hlen Hval].
  apply Nat.eqb_eq in Hlen. apply Z.eqb_eq in Hval. now split.
Qed.

Lemma entry_byte (sbox : list Z) (i : Z) :
  Forall Spec.byte sbox -> 0 <= i < Z.of_nat (length sbox) ->
  Spec.byte (Spec.entry sbox i).
Proof.
  intros Hall Hi. unfold Spec.entry.
  destruct (lookup_lt_is_Some_2 sbox (Z.to_nat i)) as [y Hy]; [lia|].
  rewrite nth_lookup, Hy. cbn. exact (Forall_lookup_1 _ _ _ _ Hall Hy).
Qed.

Lemma length_cell_text (sbox : list Z) (row col : Z) :
  Spec.byte (Spec.entry sbox (row * 16 + col)) ->
  String.length (Out.cell_text sbox row col) = 3%nat.
Proof.
  intros Hb. unfold Out.cell_text. rewrite length_append.
  destruct (format_02X_byte _ Hb) as [-> _]. reflexivity.
Qed.

(** Two tables of 256 bytes with the same text are the same table. *)
Lemma table_text_inj (s1 s2 : list Z) :
  length s1 = 256%nat -> length s2 = 256%nat ->
  Forall Spec.byte s1 -> Forall Spec.byte s2 ->
  Out.table_text s1 = Out.table_text s2 -> s1 = s2.
Proof.
  intros Hl1 Hl2 Hb1 Hb2 Htext. unfold Out.table_text in Htext.
  apply append_inj in Htext as [_ Htext]; [|reflexivity].
  apply append_inj in Htext as [_ Htext]; [|reflexivity].
  apply append_inj in Htext as [_ Hrows]; [|reflexivity].
  assert (forall s row col,
             length s = 256%nat -> Forall Spec.byte s ->
             row ∈ seqZ 0 16 -> col ∈ seqZ 0 16 ->
             String.length (Out.cell_text s row col) = 3%nat) as Hcell.
  { intros s row col Hl Hb Hrow%elem_of_seqZ Hcol%elem_of_seqZ.
    apply length_cell_text, entry_byte; [exact Hb | lia]. }
  assert (forall s row,
             length s = 256%nat -> Forall Spec.byte s -> row ∈ seqZ 0 16 ->
             String.length (Out.join (Out.cell_text s row <$> seqZ 0 16)) = 48%nat)
    as Hcells.
  { intros s row Hl Hb Hrow.
    rewrite (length_join _ 3); [reflexivity|].
    intros col Hcol. now apply Hcell. }
  assert (forall row col, row ∈ seqZ 0 16 -> col ∈ seqZ 0 16 ->
             Spec.entry s1 (row * 16 + col) = Spec.entry s2 (row * 16 + col))
    as Hentries.
  { intros row col Hrow Hcol.
    pose proof (join_inj (Out.row_text s1) (Out.row_text s2) (seqZ 0 16)) as Hr.
    specialize (Hr ltac:(intros r Hin; unfold Out.row_text;
                         rewrite !length_append, !Hcells by assumption;
                         reflexivity) Hrows row Hrow).
    unfold Out.row_text in Hr.
    apply append_inj in Hr as [_ Hr]; [|reflexivity].
    apply append_inj in Hr as [Hr _]; [|now rewrite !Hcells].
    pose proof (join_inj (Out.cell_text s1 row) (Out.cell_text s2 row) (seqZ 0 16))
      as Hc.
    specialize (Hc ltac:(intros c Hin; now rewrite !Hcell) Hr col Hcol).
    unfold Out.cell_text in Hc.
    apply elem_of_seqZ in Hrow, Hcol.
    assert (Spec.byte (Spec.entry s1 (row * 16 + col))) as He1
      by (apply entry_byte; [exact Hb1 | lia]).
    assert (Spec.byte (Spec.entry s2 (row * 16 + col))) as He2
      by (apply entry_byte; [exact Hb2 | lia]).
    destruct (format_02X_byte _ He1) as [Hlen1 Hval1].
    destruct (format_02X_byte _ He2) as [Hlen2 Hval2].
    apply append_inj in Hc as [Hc _]; [|now rewrite Hlen1, Hlen2].
    rewrite <- Hval1, <- Hval2, Hc. reflexivity. }
  rewrite (sbox_as_entries s1 Hl1), (sbox_as_entries s2 Hl2).
  apply list_fmap_ext. intros _ i Hi%list_elem_of_lookup_2%elem_of_seqZ.
  replace i with (i / 16 * 16 + i mod 16) by (Z.div_mod_to_equations; lia).
  apply Hentries; apply elem_of_seqZ; Z.div_mod_to_equations; lia.
Qed.

End Printing.

(** ** The main program *)

Section Main.

Lemma writes_eq {A : Type} (m : IO.io A) (t t' : string) (a : A) :
  Out.writes m t a -> t = t' -> Out.writes m t' a.
Proof. now intros H <-. Qed.

Lemma writes_eval_eq {A : Type} (o : option A) (a : A) :
  o = Some a -> Out.writes (IO.eval o) "" a.
Proof. intros ->. apply writes_eval. Qed.

Lemma search_sbox_entries : calculate_non_linearity Eval.sbox_entries = Some 112.
Proof.
  rewrite (search_sweep _ sbox_entries_length).
  rewrite <- (max_bias_sweep _ sbox_entries_length).
  rewrite max_bias_sbox_entries. reflexivity.
Qed.

Lemma sbox_entries_reference :
  Py.getitem Eval.sbox_entries 0 = Some 0x63
  /\ Py.getitem Eval.sbox_entries 1 = Some 0x7C.
Proof.
  rewrite sbox_entries_table.
  destruct reference_entries_checked as (H0 & H1 & _). now split.
Qed.

Lemma main_writes :
  Out.writes main
    (String.append (Out.table_text Eval.sbox_entries) Out.report_text) tt.
Proof.
  destruct sbox_entries_reference as [H0 H1].
  eapply writes_eq.
  - unfold main.
    apply (writes_eval_bind _ _ Eval.sbox_entries); [apply generate_sbox_entries|].
    eapply (writes_bind _ _ _ _ tt).
    { apply print_sbox_writes. rewrite sbox_entries_length. lia. }
    eapply (writes_bind _ _ _ _ tt); [apply writes_print|].
    apply (writes_eval_bind _ _ 0x63); [exact H0|].
    eapply (writes_bind _ _ _ _ tt); [apply writes_print|].
    apply (writes_eval_bind _ _ 0x7C); [exact H1|].
    eapply (writes_bind _ _ _ _ tt); [apply writes_print|].
    eapply (writes_bind _ _ _ _ 112).
    { unfold calculate_non_linearity_io.
      eapply (writes_bind _ _ _ _ tt); [apply writes_print|].
      apply writes_eval_eq, search_sbox_entries. }
    eapply (writes_bind _ _ _ _ tt); [apply writes_print|].
    eapply (writes_bind _ _ _ _ tt); [apply writes_print|].
    change (112 =? 112) with true. cbv iota. apply writes_print.
  - f_equal; vm_compute; reflexivity.
Qed.

End Main.

(** ** Further properties of the code *)

(** X1: the sum of two bytes is a byte: for [a], [b] in [0, 255],
    [gf_add(a, b)] lies in [0, 255]. *)
Theorem gf_add_byte (a b : Z) :
  0 <= a <= 255 -> 0 <= b <= 255 -> 0 <= gf_add a b <= 255.
Proof.
  intros Ha Hb. unfold gf_add.
  assert (0 <= Z.lxor a b) as Hnn by (apply Z.lxor_nonneg; lia).
  split; [exact Hnn|].
  destruct (Z.eq_dec (Z.lxor a b) 0) as [->|Hne]; [lia|].
  assert (Z.log2 (Z.lxor a b) < 8) as Hlog.
  { pose proof (Z.log2_lxor a b ltac:(lia) ltac:(lia)) as Hmax.
    assert (Z.log2 a < 8) by
      (destruct (Z.eq_dec a 0) as [->|]; [cbn; lia | apply Z.log2_lt_pow2; lia]).
    assert (Z.log2 b < 8) by
      (destruct (Z.eq_dec b 0) as [->|]; [cbn; lia | apply Z.log2_lt_pow2; lia]).
    lia. }
  apply Z.log2_lt_pow2 in Hlog; lia.
Qed.

Lemma gf_add_byte_witness : 0 <= gf_add 0x57 0x83 <= 255.
Proof. apply (gf_add_byte 0x57 0x83); lia. Defined.

(** X2: multiplication distributes over addition on both sides, for all
    integers: [gf_mult(gf_add(a, a'), b) == gf_add(gf_mult(a, b), gf_mult(a', b))]
    and [gf_mult(a, gf_add(b, b')) == gf_add(gf_mult(a, b), gf_mult(a, b'))]. *)
Theorem gf_mult_distributes (a a' b b' : Z) :
  gf_mult (gf_add a a') b = gf_add (gf_mult a b) (gf_mult a' b)
  /\ gf_mult a (gf_add b b') = gf_add (gf_mult a b) (gf_mult a b').
Proof. unfold gf_add. split; [apply gf_mult_add_l | apply gf_mult_add_r]. Qed.

(** X3: zero and one, for all integers: a product with 0 is 0,
    [gf_mult(a, 1) == a] whatever [a] is (the first operand is not reduced, so
    the result is outside [0, 255] when [a] is), and [gf_mult(1, b)] is [b]
    modulo 256. *)
Theorem gf_mult_zero_one (a b : Z) :
  gf_mult a 0 = 0 /\ gf_mult 0 b = 0 /\ gf_mult a 1 = a /\ gf_mult 1 b = b mod 256.
Proof.
  split; [apply gf_mult_0_r|]. split; [apply gf_mult_0_l|].
  split; [apply gf_mult_1_r | apply gf_mult_1_l].
Qed.

(** X4: multiplication is associative on bytes:
    [gf_mult(gf_mult(a, b), c) == gf_mult(a, gf_mult(b, c))]. *)
Theorem gf_mult_assoc (a b c : Z) :
  0 <= a <= 255 -> 0 <= b <= 255 -> 0 <= c <= 255 ->
  gf_mult (gf_mult a b) c = gf_mult a (gf_mult b c).
Proof. intros Ha Hb Hc. now apply gf_mult_assoc_byte. Qed.

Lemma gf_mult_assoc_witness :
  gf_mult (gf_mult 0x57 0x83) 0x13 = gf_mult 0x57 (gf_mult 0x83 0x13).
Proof. apply (gf_mult_assoc 0x57 0x83 0x13); lia. Defined.

(** X5: the inverse is unique: a byte [b] with [gf_mult(a, b) == 1] is
    [gf_inverse(a)]. *)
Theorem gf_inverse_unique (a b : Z) :
  0 <= a <= 255 -> 0 <= b <= 255 -> gf_mult a b = 1 -> b = gf_inverse a.
Proof. intros Ha Hb Hab. now apply gf_inverse_unique_byte. Qed.

Lemma gf_inverse_unique_witness : 0x8D = gf_inverse 0x02.
Proof. apply (gf_inverse_unique 0x02 0x8D); [lia | lia | vm_compute; reflexivity]. Defined.

(** X6: there are no zero divisors: for bytes, [gf_mult(a, b) == 0] exactly
    when [a] or [b] is 0. *)
Theorem gf_mult_zero_iff (a b : Z) :
  0 <= a <= 255 -> 0 <= b <= 255 -> (gf_mult a b = 0 <-> a = 0 \/ b = 0).
Proof.
  intros Ha Hb. split; [now apply gf_mult_zero_byte|].
  intros [-> | ->]; [apply gf_mult_0_l | apply gf_mult_0_r].
Qed.

Lemma gf_mult_zero_iff_witness : gf_mult 0x57 0 = 0 <-> 0x57 = 0 \/ 0 = 0.
Proof. apply (gf_mult_zero_iff 0x57 0); lia. Defined.

(** X7: [gf_inverse] maps bytes to bytes one to one, and only 0 to 0. *)
Theorem gf_inverse_bijection (a b : Z) :
  0 <= a <= 255 -> 0 <= b <= 255 ->
  0 <= gf_inverse a <= 255
  /\ (gf_inverse a = gf_inverse b -> a = b)
  /\ (gf_inverse a = 0 <-> a = 0).
Proof.
  intros Ha Hb.
  destruct (gf_inverse_facts a Ha) as (Hia & Hinva & Hmul).
  destruct (gf_inverse_facts b Hb) as (_ & Hinvb & _).
  split; [exact Hia|]. split.
  - intros Heq. rewrite <- Hinva, <- Hinvb, Heq. reflexivity.
  - split; [|intros ->; reflexivity].
    intros Hzero. destruct (Z.eq_dec a 0) as [|Hne]; [assumption|].
    specialize (Hmul Hne). rewrite Hzero, gf_mult_0_r in Hmul. discriminate.
Qed.

Lemma gf_inverse_bijection_witness :
  0 <= gf_inverse 0x53 <= 255
  /\ (gf_inverse 0x53 = gf_inverse 0x53 -> 0x53 = 0x53)
  /\ (gf_inverse 0x53 = 0 <-> 0x53 = 0).
Proof. apply (gf_inverse_bijection 0x53 0x53); lia. Defined.

(** X8: with a byte as first operand the product is a byte, whatever integer
    the second operand is. *)
Theorem gf_mult_byte_any (a b : Z) :
  0 <= a <= 255 -> 0 <= gf_mult a b <= 255.
Proof.
  intros Ha. rewrite gf_mult_mod_256. apply gf_mult_byte; [exact Ha|].
  unfold Spec.byte. pose proof (Z.mod_pos_bound b 256). lia.
Qed.

Lemma gf_mult_byte_any_witness : 0 <= gf_mult 0x57 (-3) <= 255.
Proof. apply (gf_mult_byte_any 0x57 (-3)). lia. Defined.

(** X9: [affine_transform] reads bits 0 to 7 of its argument only:
    [affine_transform(b) == affine_transform(b mod 256)] for every integer. *)
Theorem affine_transform_low_byte (b : Z) :
  affine_transform b = affine_transform (b mod 256).
Proof. symmetry. apply affine_transform_low. Qed.

(** X10: bit [k] of [affine_transform(b)] is, for [k] in [0, 7], the sum of
    bits [k], [k + 4], [k + 5], [k + 6] and [k + 7] (modulo 8) of [b] and bit
    [k] of 0x63, and no other bit is set. *)
Theorem affine_transform_bits (b k : Z) :
  Z.testbit (affine_transform b) k = (0 <=? k) && (k <? 8) && Affine.row b k.
Proof. apply affine_transform_testbit. Qed.

(** X11: [affine_transform] is affine over exclusive or:
    [affine_transform(a ^ b) == affine_transform(a) ^ affine_transform(b) ^ 0x63]. *)
Theorem affine_transform_xor (a b : Z) :
  affine_transform (Z.lxor a b)
  = Z.lxor (Z.lxor (affine_transform a) (affine_transform b)) 0x63.
Proof. apply affine_transform_lxor. Qed.

(** X12: [generate_sbox()] returns, and entry [i] of the table is
    [affine_transform(gf_inverse(i))] for every byte [i]. *)
Theorem generate_sbox_entry :
  exists sbox,
    generate_sbox = Some sbox
    /\ forall i, 0 <= i <= 255 ->
                 Py.getitem sbox i = Some (affine_transform (gf_inverse i)).
Proof.
  exists Eval.sbox_entries. split; [apply generate_sbox_entries|].
  intros i Hi. now apply sbox_entries_getitem.
Qed.

(** X13: the generated table has no fixed point and no opposite fixed
    point: no entry equals its index or the complement of its index. *)
Theorem generate_sbox_no_fixed_point :
  exists sbox,
    generate_sbox = Some sbox
    /\ forall i s, 0 <= i <= 255 -> Py.getitem sbox i = Some s ->
                   s <> i /\ s <> Z.lxor i 0xFF.
Proof.
  exists Eval.sbox_entries. split; [apply generate_sbox_entries|].
  intros i s Hi Hs. rewrite sbox_entries_getitem in Hs by exact Hi.
  injection Hs as <-. now apply substitute_no_fixed_point.
Qed.

(** X14: [calculate_non_linearity] raises [IndexError] exactly when the table
    has fewer than 256 entries. *)
Theorem calculate_non_linearity_raises_iff (sbox : list Z) :
  calculate_non_linearity sbox = None <-> (length sbox < 256)%nat.
Proof. apply search_raises_iff. Qed.

(** X15: [calculate_non_linearity] reads the first 256 entries of the table
    only. *)
Theorem calculate_non_linearity_first_256 (sbox : list Z) :
  calculate_non_linearity sbox = calculate_non_linearity (take 256 sbox).
Proof. apply search_take. Qed.

(** X16: when, for some pair of nonzero masks, the linear approximation
    holds at every input or at none, the score of a 256-entry table is 0. *)
Theorem calculate_non_linearity_perfect_approximation (sbox : list Z) (u v : Z) :
  length sbox = 256%nat -> 1 <= u <= 255 -> 1 <= v <= 255 ->
  Spec.matches sbox u v = 256 \/ Spec.matches sbox u v = 0 ->
  calculate_non_linearity sbox = Some 0.
Proof. intros Hlen Hu Hv. now apply search_perfect_approximation. Qed.

Lemma calculate_non_linearity_perfect_approximation_witness :
  calculate_non_linearity (seqZ 0 256) = Some 0.
Proof.
  apply (calculate_non_linearity_perfect_approximation (seqZ 0 256) 1 1);
    [vm_compute; reflexivity | lia | lia | left; vm_compute; reflexivity].
Defined.

(** X17: on a table of at least 256 integers, of any size and sign,
    [calculate_non_linearity] returns a score in [0, 128]. *)
Theorem calculate_non_linearity_any_entries (sbox : list Z) :
  (256 <= length sbox)%nat ->
  exists score, calculate_non_linearity sbox = Some score /\ 0 <= score <= 128.
Proof. apply search_long_table. Qed.

Lemma calculate_non_linearity_any_entries_witness :
  exists score,
    calculate_non_linearity (seqZ (-150) 300) = Some score /\ 0 <= score <= 128.
Proof.
  apply (calculate_non_linearity_any_entries (seqZ (-150) 300)).
  vm_compute. lia.
Defined.

(** X18: [print_sbox] raises [IndexError] exactly when the table has fewer
    than 256 entries. *)
Theorem print_sbox_raises_iff (sbox : list Z) :
  Out.raises (print_sbox sbox) <-> (length sbox < 256)%nat.
Proof.
  split; [|apply print_sbox_raises].
  intros Hraises. destruct (Nat.lt_ge_cases (length sbox) 256) as [|Hge]; [assumption|].
  exfalso. exact (writes_not_raises _ _ _ (print_sbox_writes sbox Hge) Hraises).
Qed.

(** X19: on a table of at least 256 entries [print_sbox] adds to the output,
    whatever was written before, the three header lines and 16 lines, line
    [row] being the hexadecimal digit of [row], [" | "] and the 16 entries
    [16 * row] to [16 * row + 15], each as two or more hexadecimal digits and
    a space. *)
Theorem print_sbox_output (sbox : list Z) (out : string) :
  (256 <= length sbox)%nat ->
  print_sbox sbox out = (String.append out (Out.table_text sbox), Some tt).
Proof. intros Hlen. now apply print_sbox_writes. Qed.

Lemma print_sbox_output_witness :
  print_sbox (replicate 256 0) "--"%string
  = (String.append "--" (Out.table_text (replicate 256 0)), Some tt).
Proof.
  apply (print_sbox_output (replicate 256 0) "--"%string).
  rewrite length_replicate. lia.
Defined.

(** X20: the printed table is lossless on bytes: two tables of 256 bytes for
    which [print_sbox] writes the same text are equal. *)
Theorem print_sbox_lossless (s1 s2 : list Z) (out : string) :
  length s1 = 256%nat -> length s2 = 256%nat ->
  Forall (fun s => 0 <= s <= 255) s1 -> Forall (fun s => 0 <= s <= 255) s2 ->
  print_sbox s1 out = print_sbox s2 out -> s1 = s2.
Proof.
  intros Hl1 Hl2 Hb1 Hb2 Hout.
  rewrite (print_sbox_writes s1), (print_sbox_writes s2) in Hout by lia.
  injection Hout as Hout.
  apply append_inj in Hout as [_ Htext]; [|reflexivity].
  now apply table_text_inj.
Qed.

Lemma print_sbox_lossless_witness : replicate 256 7 = replicate 256 7.
Proof.
  apply (print_sbox_lossless (replicate 256 7) (replicate 256 7) ""%string).
  - apply length_replicate.
  - apply length_replicate.
  - apply Forall_replicate. lia.
  - apply Forall_replicate. lia.
  - reflexivity.
Defined.

(** X21: the main program never raises; it writes the table, the two
    spot-check lines showing 63 and 7C, the score 112 and the SUCCESS line. *)
Theorem main_output (out : string) :
  main out
  = (String.append out
       (String.append (Out.table_text Eval.sbox_entries) Out.report_text),
     Some tt).
Proof. apply main_writes. Qed.
